(** * Word-Ladder: the [Graph] and [LadderGraph] classes of Graph.py and
    LadderGraph.py, embedded in Rocq, and the properties of their queries.

    Modelling conventions.
    - A Python [str] is a [string]; [str.lower] is modelled on ASCII letters,
      and no proof looks inside it.
    - A Python [set[str]] that the program iterates over is a [list string]:
      the sequence in which Python enumerates the set.  The theorems
      quantify over these sequences, so they hold for every iteration order
      of the neighbour sets; [LadderGraph_init] fills its sets in insertion
      order, and [ladder_graph] admits every other order.
    - A [set] that is only filled and returned is a [gset].
    - A [dict] is a [gmap].
    - [while] loops and the recursive closure of [get_all_ladders] take a
      [fuel] argument; [None] means that the fuel ran out, and the termination
      theorems show that a fuel computed from the graph is always enough.
    - A Python exception is a value [Raised e] of [outcome].  The
      interpreter's limit on the depth of recursion is not modelled. *)

From Stdlib Require Import Ascii String ZArith.
From stdpp Require Import gmap strings list fin_maps.

Local Open Scope Z_scope.
Local Open Scope nat_scope.

(** ** Python values *)

Inductive exn : Type :=
  | UnboundLocalError
  | IndexError.

Inductive outcome (A : Type) : Type :=
  | Returned (a : A)
  | Raised (e : exn).
Arguments Returned {A} a.
Arguments Raised {A} e.

(** What one run of a [for] loop does to the enclosing function: it falls
    through with the updated local state, executes [return], or raises. *)
Inductive flow (S R : Type) : Type :=
  | Next (s : S)
  | Return (r : R)
  | Raise (e : exn).
Arguments Next {S R} s.
Arguments Return {S R} r.
Arguments Raise {S R} e.

(** An [int], or the float [inf] ([float('inf')], [math.inf]). *)
Inductive number : Type :=
  | Int (z : Z)
  | Inf.

#[global] Instance number_eq_dec : EqDecision number.
Proof. solve_decision. Defined.

(** [n <= m] and [n > m] for an [int] [n]. *)
Definition int_le (n : Z) (m : number) : bool :=
  match m with Int z => (n <=? z)%Z | Inf => true end.

Definition int_gt (n : Z) (m : number) : bool :=
  match m with Int z => (z <? n)%Z | Inf => false end.

(** [m + 1] *)
Definition number_succ (m : number) : number :=
  match m with Int z => Int (z + 1) | Inf => Inf end.

(** [len(x)] as a Python [int]. *)
Definition len {A} (l : list A) : Z := Z.of_nat (length l).

(** ** Graph.py *)

Record Graph : Type := mkGraph {
  adjacency_list : gmap string (list string);
  vertices : gset string;
  edges : gset (string * string)
}.

(** [tuple(sorted((vertex, neighbor)))]: the sort is stable, so the pair is
    swapped only when the second component is strictly smaller. *)
Definition sorted_pair (vertex neighbor : string) : string * string :=
  if String.ltb neighbor vertex then (neighbor, vertex) else (vertex, neighbor).

(** [Graph.__init__] *)
Definition Graph_init (adjacency_list : gmap string (list string)) : Graph :=
  {| adjacency_list := adjacency_list;
     vertices := dom adjacency_list;
     edges :=
       foldl (λ edges '(vertex, neighbors),
                foldl (λ edges neighbor, {[sorted_pair vertex neighbor]} ∪ edges)
                      edges neighbors)
             ∅ (map_to_list adjacency_list) |}.

Definition is_vertex (g : Graph) (vertex : string) : bool :=
  bool_decide (vertex ∈ vertices g).

Definition get_neighbors (g : Graph) (vertex : string) : list string :=
  if decide (vertex ∉ vertices g) then []
  else default [] (adjacency_list g !! vertex).

(** [is_valid_path]: the loop returns [False] at the first index whose
    element is not a key; [path[i]] is always in range. *)
Definition is_valid_path (g : Graph) (path : list string) : bool :=
  forallb (λ i, match path !! i with
                | Some v => bool_decide (is_Some (adjacency_list g !! v))
                | None => false
                end)
          (seq 0 (length path - 1)).

(** The [for] loop of [get_shortest_bfs_path] over the neighbours still to
    visit.  [new_path] is a local of the function: it keeps its value from
    one neighbour, and from one dequeued path, to the next, and is unbound
    ([None]) until its first assignment. *)
Fixpoint bfs_for (target : string) (old_path : list string)
    (neighbours : list string)
    (path_queue : list (list string)) (new_path : option (list string))
  : flow (list (list string) * option (list string)) (list string) :=
  match neighbours with
  | [] => Next (path_queue, new_path)
  | neighbour :: rest =>
      let '(path_queue, new_path) :=
        if decide (neighbour ∉ old_path)
        then (path_queue ++ [old_path ++ [neighbour]],
              Some (old_path ++ [neighbour]))
        else (path_queue, new_path) in
      if decide (neighbour = target) then
        match new_path with
        | Some p => Return p
        | None => Raise UnboundLocalError
        end
      else bfs_for target old_path rest path_queue new_path
  end.

(** The [while path_queue] loop of [get_shortest_bfs_path]. *)
Fixpoint bfs_while (fuel : nat) (g : Graph) (target : string)
    (path_queue : list (list string)) (new_path : option (list string))
  : option (outcome (list string)) :=
  match fuel with
  | 0 => None
  | S fuel =>
      match path_queue with
      | [] => Some (Returned [])
      | old_path :: path_queue =>
          match last old_path with
          | None => Some (Raised IndexError)
          | Some last_node =>
              match bfs_for target old_path (get_neighbors g last_node)
                            path_queue new_path with
              | Next (path_queue, new_path) =>
                  bfs_while fuel g target path_queue new_path
              | Return p => Some (Returned p)
              | Raise e => Some (Raised e)
              end
          end
      end
  end.

Definition get_shortest_bfs_path (fuel : nat) (g : Graph)
    (start target : string) : option (outcome (list string)) :=
  bfs_while fuel g target [[start]] None.

Definition get_shortest_bfs_path_length (fuel : nat) (g : Graph)
    (start target : string) : option (outcome Z) :=
  match get_shortest_bfs_path fuel g start target with
  | None => None
  | Some (Raised e) => Some (Raised e)
  | Some (Returned shortest_path) =>
      Some (Returned (match shortest_path with
                      | [] => 0%Z
                      | _ => (len shortest_path - 1)%Z
                      end))
  end.

(** The locals of [get_all_shortest_bfs_paths] that its loops update. *)
Record all_state : Type := mkAll {
  paths : gset (list string);
  queue : list (list string);
  min_length : number
}.

(** The body of the [for] loop of [get_all_shortest_bfs_paths]. *)
Definition all_body (target : string) (current_path : list string)
    (st : all_state) (neighbor : string) : all_state :=
  if decide (neighbor ∉ current_path) then
    let new_path := current_path ++ [neighbor] in
    if decide (neighbor = target) then
      if int_le (len new_path) (min_length st) then
        mkAll ({[new_path]} ∪ paths st) (queue st) (Int (len new_path))
      else st
    else mkAll (paths st) (queue st ++ [new_path]) (min_length st)
  else st.

Fixpoint all_while (fuel : nat) (g : Graph) (target : string)
    (st : all_state) : option (outcome all_state) :=
  match fuel with
  | 0 => None
  | S fuel =>
      match queue st with
      | [] => Some (Returned st)
      | current_path :: path_queue =>
          match last current_path with
          | None => Some (Raised IndexError)
          | Some last_node =>
              all_while fuel g target
                (foldl (all_body target current_path)
                       (mkAll (paths st) path_queue (min_length st))
                       (get_neighbors g last_node))
          end
      end
  end.

Definition get_all_shortest_bfs_paths (fuel : nat) (g : Graph)
    (source target : string) : option (outcome (gset (list string))) :=
  match all_while fuel g target (mkAll ∅ [[source]] Inf) with
  | None => None
  | Some (Raised e) => Some (Raised e)
  | Some (Returned st) =>
      Some (Returned (filter (λ path, Int (len path) = min_length st)
                             (paths st)))
  end.

(** ** LadderGraph.py *)

(** [str.lower] on ASCII: the letters [A]..[Z] move to [a]..[z]. *)
Definition lower_ascii (c : ascii) : ascii :=
  let n := N_of_ascii c in
  if ((65 <=? n) && (n <=? 90))%N then ascii_of_N (n + 32) else c.

Fixpoint lower (s : string) : string :=
  match s with
  | EmptyString => EmptyString
  | String c s => String (lower_ascii c) (lower s)
  end.

(** [hamming_distance]: [zip] stops at the end of the shorter word. *)
Definition hamming_distance (w1 w2 : string) : nat :=
  foldl (λ distance '(char1, char2),
           if decide (char1 ≠ char2) then distance + 1 else distance)
        0 (zip (list_ascii_of_string w1) (list_ascii_of_string w2)).

(** [s.add(x)] on a set given by its sequence of elements. *)
Definition set_add (x : string) (s : list string) : list string :=
  if decide (x ∈ s) then s else s ++ [x].

(** [build_adj_list]; [adj_list[word].add(..)] finds [word] bound, because
    the enclosing iteration has just bound it. *)
Definition build_adj_list (word_list : list string)
  : gmap string (list string) :=
  foldl (λ adj_list word,
           let word := lower word in
           foldl (λ adj_list other_word,
                    let other_word := lower other_word in
                    if decide (word ≠ other_word
                               ∧ hamming_distance word other_word = 1)
                    then alter (set_add other_word) word adj_list
                    else adj_list)
                 (<[word := []]> adj_list) word_list)
        ∅ word_list.

(** [LadderGraph.__init__] *)
Definition LadderGraph_init (word_list : list string) : Graph :=
  Graph_init (build_adj_list word_list).

Definition is_valid_word (g : Graph) (word : string) : bool :=
  bool_decide (lower word ∈ vertices g).

Definition is_valid_ladder (ladder : list string) : bool :=
  if decide (length ladder < 2) then false
  else
    forallb (λ i, match ladder !! i, ladder !! (i + 1) with
                  | Some w1, Some w2 =>
                      bool_decide
                        (hamming_distance (lower w1) (lower w2) = 1)
                  | _, _ => false
                  end)
            (seq 0 (length ladder - 1)).

Definition get_rung_length (ladder : list string) : Z :=
  if negb (is_valid_ladder ladder) then (-1)%Z
  else (len ladder - 2)%Z.

Definition get_shortest_ladder (fuel : nat) (g : Graph)
    (start target : string) : option (outcome (list string)) :=
  if decide (lower start ∉ vertices g ∨ lower target ∉ vertices g)
  then Some (Returned [])
  else get_shortest_bfs_path fuel g (lower start) (lower target).

Definition get_all_shortest_ladders (fuel : nat) (g : Graph)
    (start target : string) : option (outcome (gset (list string))) :=
  if decide (lower start ∉ vertices g ∨ lower target ∉ vertices g)
  then Some (Returned ∅)
  else get_all_shortest_bfs_paths fuel g (lower start) (lower target).

(** A [for] loop whose body may run out of fuel: the state is threaded
    through the elements of [l] in order. *)
Fixpoint for_each {A S : Type} (body : S → A → option S) (l : list A) (s : S)
  : option S :=
  match l with
  | [] => Some s
  | a :: l =>
      match body s a with
      | None => None
      | Some s => for_each body l s
      end
  end.

(** The closure [find_ladders] of [get_all_ladders]; it adds to the set
    [ladders] of the enclosing call, which is threaded through.  [fuel]
    bounds the depth of the recursion. *)
Fixpoint find_ladders (fuel : nat) (g : Graph) (target : string)
    (max_rungs : number) (current_word : string) (path : list string)
    (ladders : gset (list string)) : option (gset (list string)) :=
  match fuel with
  | 0 => None
  | S fuel =>
      if int_gt (len path) (number_succ max_rungs) then Some ladders
      else if decide (current_word = lower target)
      then Some ({[path]} ∪ ladders)
      else
        for_each (λ ladders neighbor,
                    if decide (neighbor ∉ path)
                    then find_ladders fuel g target max_rungs neighbor
                                      (path ++ [neighbor]) ladders
                    else Some ladders)
                 (get_neighbors g current_word) ladders
  end.

Definition get_all_ladders (fuel : nat) (g : Graph) (start target : string)
    (max_rungs : number) : option (gset (list string)) :=
  if decide (lower start ∉ vertices g ∨ lower target ∉ vertices g)
  then Some ∅
  else find_ladders fuel g target max_rungs (lower start) [lower start] ∅.

(** ** The graphs of the two demonstration programs, and small inputs *)

Definition small_dictionary : list string :=
  ["foul"; "fool"; "cool"; "pool"; "poll"; "pole"; "pope"; "pale"; "sale";
   "sage"; "page"; "pall"; "fall"; "fail"; "foil"]%string.

Definition myLadderGraph : Graph := LadderGraph_init small_dictionary.

Definition good_ladder : list string :=
  ["fool"; "pool"; "poll"; "pall"; "pale"; "page"; "sage"]%string.

Definition bad_ladder : list string :=
  ["fool"; "pool"; "pall"; "pale"; "page"; "sage"]%string.

Definition three_words : list string := ["ab"; "ac"; "bc"]%string.

Definition mixed_words : list string := ["ab"; "acd"; "AB"]%string.

Definition binary_tree_graph : gmap string (list string) :=
  list_to_map
    [("A", ["B"]); ("B", ["F"; "A"; "D"]); ("C", ["D"]);
     ("D", ["B"; "C"; "E"]); ("E", ["D"]); ("F", ["B"; "G"]);
     ("G", ["F"; "I"]); ("H", ["I"]); ("I", ["G"; "H"])]%string.

Definition self_loop_graph : gmap string (list string) :=
  {[ "A"%string := ["A"%string] ]}.

Definition two_cycle_graph : gmap string (list string) :=
  <[ "A"%string := ["B"%string] ]> {[ "B"%string := ["A"%string] ]}.

Definition diamond_bc : gmap string (list string) :=
  list_to_map [("A", ["B"; "C"]); ("B", ["D"]); ("C", ["D"]); ("D", [])]%string.

Definition diamond_cb : gmap string (list string) :=
  list_to_map [("A", ["C"; "B"]); ("B", ["D"]); ("C", ["D"]); ("D", [])]%string.

(** ** Vocabulary of the specification *)

(** *** Paths *)

(** Consecutive elements of [p] are joined by an edge of [get_neighbors]. *)
Definition walk (g : Graph) (p : list string) : Prop :=
  ∀ i u v, p !! i = Some u → p !! S i = Some v → v ∈ get_neighbors g u.

(** [p] leads from [s] to [t] along edges of [get_neighbors]. *)
Definition path_between (g : Graph) (s t : string) (p : list string) : Prop :=
  head p = Some s ∧ last p = Some t ∧ walk g p.

(** A simple walk from [start] to [target]. *)
Definition simple_path (g : Graph) (start target : string) (w : list string)
  : Prop :=
  path_between g start target w ∧ NoDup w.

(** *** Fuel *)

(** Every vertex that occurs in a neighbour set. *)
Definition nodes (g : Graph) : list string :=
  mjoin ((map_to_list (adjacency_list g)).*2).

(** The vertices a path could still be extended with. *)
Definition unused (g : Graph) (p : list string) : nat :=
  length (filter (λ x, x ∉ p) (nodes g)).

(** The number of loop iterations that a queued path of [d] unused
    vertices can cause, when no vertex has more than [b] neighbours. *)
Fixpoint weight (b d : nat) : nat :=
  match d with
  | 0 => 1
  | S d => 1 + b * weight b d
  end.

Definition path_weight (g : Graph) (p : list string) : nat :=
  weight (length (nodes g)) (unused g p).

Definition queue_weight (g : Graph) (q : list (list string)) : nat :=
  sum_list_with (path_weight g) q.

(** Fuel enough for the two breadth-first searches, and for the depth of
    the recursion of [find_ladders]. *)
Definition bfs_budget (g : Graph) : nat :=
  S (weight (length (nodes g)) (length (nodes g))).

Definition depth_budget (g : Graph) : nat := S (length (nodes g)).

(** *** The queue of the breadth-first searches *)

(** A queued path: a simple walk from [start] that has not met [target]. *)
Definition frontier_path (g : Graph) (start target : string)
    (p : list string) : Prop :=
  head p = Some start ∧ walk g p ∧ NoDup p ∧ target ∉ p.

(** The queue holds its paths by increasing length, and the lengths differ
    by at most one. *)
Definition ordered (q : list (list string)) : Prop :=
  ∀ i j p p', i ≤ j → q !! i = Some p → q !! j = Some p' →
              length p ≤ length p' ≤ length p + 1.

(** A proper prefix of [w] is waiting in the queue. *)
Definition tracks (w : list string) (q : list (list string)) : Prop :=
  ∃ i, S i < length w ∧ take (S i) w ∈ q.

(** The paths that replace [h], whose last vertex is [u], in the queue. *)
Definition expand (g : Graph) (target : string) (h : list string)
    (u : string) : list (list string) :=
  (λ n, h ++ [n]) <$> filter (λ n, (n ∉ h) ∧ n ≠ target) (get_neighbors g u).

(** [m <= z] for the running minimum [m], which starts as [inf]. *)
Definition below (m : number) (z : Z) : Prop :=
  match m with Int m => (m ≤ z)%Z | Inf => False end.

(** [n <= m] as a proposition. *)
Definition at_most (n : Z) (m : number) : Prop :=
  match m with Int z => (n ≤ z)%Z | Inf => True end.

(** *** Ladders *)

(** The paths that [find_ladders current_word path] adds to [ladders]. *)
Inductive ladder_from (g : Graph) (target : string) (max_rungs : number)
    (current_word : string) (path : list string) : list string → Prop :=
  | ladder_here :
      int_gt (len path) (number_succ max_rungs) = false →
      current_word = lower target →
      ladder_from g target max_rungs current_word path path
  | ladder_step (neighbor : string) (q : list string) :
      int_gt (len path) (number_succ max_rungs) = false →
      current_word ≠ lower target →
      neighbor ∈ get_neighbors g current_word →
      neighbor ∉ path →
      ladder_from g target max_rungs neighbor (path ++ [neighbor]) q →
      ladder_from g target max_rungs current_word path q.

(** A simple walk to the target that respects the bound. *)
Definition ladder (g : Graph) (target : string) (max_rungs : number)
    (q : list string) : Prop :=
  walk g q ∧ NoDup q ∧ last q = Some (lower target)
  ∧ int_gt (len q) (number_succ max_rungs) = false.

(** The set that [build_adj_list] leaves under the key [word]. *)
Definition ladder_neighbors (word : string) (word_list : list string)
  : list string :=
  foldl (λ s other_word,
           if decide (word ≠ lower other_word
                      ∧ hamming_distance word (lower other_word) = 1)
           then set_add (lower other_word) s else s)
        [] word_list.

(** A graph that [LadderGraph.__init__] may construct from [word_list]:
    Python does not fix the order in which the neighbour sets filled by
    [build_adj_list] are enumerated, so every rearrangement of them is
    admitted. *)
Definition ladder_graph (g : Graph) (word_list : list string) : Prop :=
  ∃ adjacency,
    g = Graph_init adjacency
    ∧ ∀ v, option_Forall2 (≡ₚ) (adjacency !! v) (build_adj_list word_list !! v).

(** A simple path from [s] to [t] through known words, each at Hamming
    distance 1 from the next. *)
Definition simple_ladder (word_list : list string) (s t : string)
    (q : list string) : Prop :=
  head q = Some s ∧ last q = Some t ∧ NoDup q
  ∧ (∀ w, w ∈ q → w ∈ lower <$> word_list)
  ∧ ∀ i u v, q !! i = Some u → q !! S i = Some v → hamming_distance u v = 1.

(** * Properties *)

(** ** The demonstration programs *)

Example foil_neighbors :
  get_neighbors myLadderGraph "foil" = ["foul"; "fool"; "fail"]%string.
Proof. vm_compute. reflexivity. Qed.

Example good_ladder_valid :
  is_valid_ladder good_ladder = true ∧ get_rung_length good_ladder = 5%Z.
Proof. split; vm_compute; reflexivity. Qed.

Example bad_ladder_invalid :
  is_valid_ladder bad_ladder = false ∧ get_rung_length bad_ladder = (-1)%Z.
Proof. split; vm_compute; reflexivity. Qed.

Example shortest_ladder_foul_sage :
  get_shortest_bfs_path_length 1000 myLadderGraph "foul" "sage"
  = Some (Returned 7%Z).
Proof. vm_compute. reflexivity. Qed.

Example ladder_wrappers :
  is_vertex (LadderGraph_init three_words) "ac" = true
  ∧ is_valid_word (LadderGraph_init three_words) "AC" = true
  ∧ is_valid_word (LadderGraph_init three_words) "zz" = false
  ∧ get_shortest_ladder 9 (LadderGraph_init three_words) "AB" "bc"
    = Some (Returned ["ab"; "ac"; "bc"]%string)
  ∧ get_shortest_ladder 9 (LadderGraph_init three_words) "ab" "zz"
    = Some (Returned [])
  ∧ get_all_shortest_ladders 9 (LadderGraph_init three_words) "AB" "bc"
    = Some (Returned {[ ["ab"; "ac"; "bc"]%string ]})
  ∧ get_all_shortest_ladders 9 (LadderGraph_init three_words) "zz" "bc"
    = Some (Returned ∅).
Proof. repeat split; vm_compute; reflexivity. Qed.

(** ** [is_valid_path] *)

Lemma is_valid_path_iff (g : Graph) (path : list string) :
  is_valid_path g path = true
  ↔ ∀ i v, i < length path - 1 → path !! i = Some v →
           is_Some (adjacency_list g !! v).
Proof.
  unfold is_valid_path. rewrite forallb_forall. split.
  - intros H i v Hi Hv.
    specialize (H i). rewrite Hv in H.
    eapply bool_decide_eq_true_1, H, in_seq. lia.
  - intros H i Hi. apply in_seq in Hi.
    destruct (path !! i) as [v|] eqn:Hv.
    + apply bool_decide_eq_true_2. apply (H i); [lia | done].
    + apply lookup_ge_None in Hv. lia.
Qed.

(** C8.  [is_valid_path path] is [True] exactly when every element of [path]
    but the last is a key of the adjacency map.  Adjacency of consecutive
    elements is not required (the path F, B, D, I of the demonstration is
    accepted although I is no neighbour of D), and the empty tuple and every
    one-element tuple are accepted. *)
Theorem is_valid_path_checks_keys_only
    (adjacency : gmap string (list string)) (path : list string) :
  (is_valid_path (Graph_init adjacency) path = true
   ↔ ∀ i v, i < length path - 1 → path !! i = Some v → v ∈ dom adjacency)
  ∧ is_valid_path (Graph_init adjacency) [] = true
  ∧ (∀ v, is_valid_path (Graph_init adjacency) [v] = true)
  ∧ (is_valid_path (Graph_init binary_tree_graph) ["F"; "B"; "D"; "I"]%string
       = true
     ∧ "I"%string ∉ get_neighbors (Graph_init binary_tree_graph) "D").
Proof.
  split; [|split; [|split]].
  - rewrite is_valid_path_iff. simpl.
    split; intros H i v Hi Hv; apply elem_of_dom; eauto.
  - reflexivity.
  - reflexivity.
  - split; [vm_compute; reflexivity|].
    intros H. vm_compute in H.
    repeat (apply elem_of_cons in H as [H|H]; [discriminate|]).
    by apply elem_of_nil in H.
Qed.

(** ** [is_valid_ladder] and [get_rung_length] *)

(** C9.  [is_valid_ladder ladder] is [True] exactly when the ladder has at
    least two entries and every two consecutive lowercased entries are at
    Hamming distance 1; [get_rung_length] is [len(ladder) - 2] on a valid
    ladder and [-1] otherwise. *)
Theorem is_valid_ladder_get_rung_length (ladder : list string) :
  (is_valid_ladder ladder = true
   ↔ 2 ≤ length ladder
     ∧ ∀ i w1 w2, ladder !! i = Some w1 → ladder !! S i = Some w2 →
                  hamming_distance (lower w1) (lower w2) = 1)
  ∧ get_rung_length ladder
    = if is_valid_ladder ladder then (len ladder - 2)%Z else (-1)%Z.
Proof.
  split.
  - unfold is_valid_ladder. case_decide as Hlen.
    { split; [done | lia]. }
    rewrite forallb_forall. split.
    + intros H. split; [lia|]. intros i w1 w2 H1 H2.
      specialize (H i). rewrite Nat.add_1_r, H1, H2 in H.
      eapply bool_decide_eq_true_1, H, in_seq.
      apply lookup_lt_Some in H2. lia.
    + intros [_ H] i Hi. apply in_seq in Hi. rewrite Nat.add_1_r.
      destruct (ladder !! i) as [w1|] eqn:H1;
        [|apply lookup_ge_None in H1; lia].
      destruct (ladder !! S i) as [w2|] eqn:H2;
        [|apply lookup_ge_None in H2; lia].
      apply bool_decide_eq_true_2. eauto.
  - unfold get_rung_length. by destruct (is_valid_ladder ladder).
Qed.

(** ** The edge set *)

Lemma sorted_pair_sorted (vertex neighbor : string) :
  String.leb (sorted_pair vertex neighbor).1 (sorted_pair vertex neighbor).2
  = true.
Proof.
  unfold sorted_pair, String.ltb, String.leb.
  destruct (String.compare neighbor vertex) eqn:Hc; simpl.
  - rewrite String.compare_antisym, Hc. done.
  - by rewrite Hc.
  - rewrite String.compare_antisym, Hc. done.
Qed.

Lemma elem_of_edges_inner (vertex : string) (neighbors : list string)
    (E : gset (string * string)) (e : string * string) :
  e ∈ foldl (λ edges neighbor, {[sorted_pair vertex neighbor]} ∪ edges)
            E neighbors
  ↔ e ∈ E ∨ ∃ neighbor, neighbor ∈ neighbors ∧ e = sorted_pair vertex neighbor.
Proof.
  revert E. induction neighbors as [|n ns IH]; intros E; simpl.
  - split; [auto|]. intros [?|(?&H&_)]; [done|]. by apply elem_of_nil in H.
  - rewrite IH, elem_of_union, elem_of_singleton. split.
    + intros [[->|?]|(n'&?&->)]; [right|by left|right].
      * exists n. split; [left|done].
      * exists n'. split; [by right|done].
    + intros [?|(n'&Hn&->)]; [by left; right|].
      apply elem_of_cons in Hn as [->|?]; [by left; left|].
      right. by exists n'.
Qed.

Lemma elem_of_edges_outer (l : list (string * list string))
    (E : gset (string * string)) (e : string * string) :
  e ∈ foldl (λ edges '(vertex, neighbors),
               foldl (λ edges neighbor,
                        {[sorted_pair vertex neighbor]} ∪ edges)
                     edges neighbors) E l
  ↔ e ∈ E ∨ ∃ vertex neighbors neighbor,
              (vertex, neighbors) ∈ l ∧ neighbor ∈ neighbors
              ∧ e = sorted_pair vertex neighbor.
Proof.
  revert E. induction l as [|[v ns] l IH]; intros E; simpl.
  - split; [auto|]. intros [?|(?&?&?&H&_)]; [done|]. by apply elem_of_nil in H.
  - rewrite IH, elem_of_edges_inner. split.
    + intros [[?|(n&?&->)]|(v'&ns'&n&?&?&->)]; [by left|right..].
      * exists v, ns, n. split; [left|done].
      * exists v', ns', n. split; [by right|done].
    + intros [?|(v'&ns'&n&Hin&?&->)]; [by left; left|].
      apply elem_of_cons in Hin as [[= -> ->]|?].
      * left; right. by exists n.
      * right. by exists v', ns', n.
Qed.

Lemma elem_of_edges (adjacency : gmap string (list string))
    (e : string * string) :
  e ∈ edges (Graph_init adjacency)
  ↔ ∃ vertex neighbors neighbor,
      adjacency !! vertex = Some neighbors ∧ neighbor ∈ neighbors
      ∧ e = sorted_pair vertex neighbor.
Proof.
  unfold Graph_init; simpl. rewrite elem_of_edges_outer. split.
  - intros [H|(v&ns&n&H&?&?)]; [by apply not_elem_of_empty in H|].
    apply elem_of_map_to_list in H. by exists v, ns, n.
  - intros (v&ns&n&H&?&?). right. exists v, ns, n.
    by rewrite elem_of_map_to_list.
Qed.

(** C7.  Every element [(u, v)] of [edges] is a lexicographically sorted
    pair, and [v] is in the input neighbour set of [u] or [u] in that of [v].
    The set is a field that [Graph.__init__] computes; the queries are
    functions of the constructed graph that return their answer only, as no
    method of the source assigns to an attribute. *)
Theorem edges_sorted_and_from_input
    (adjacency : gmap string (list string)) (u v : string) :
  (u, v) ∈ edges (Graph_init adjacency) →
  String.leb u v = true
  ∧ ((∃ neighbors, adjacency !! u = Some neighbors ∧ v ∈ neighbors)
     ∨ (∃ neighbors, adjacency !! v = Some neighbors ∧ u ∈ neighbors)).
Proof.
  intros (vertex & ns & n & Hadj & Hn & He)%elem_of_edges.
  pose proof (sorted_pair_sorted vertex n) as Hs.
  rewrite <- He in Hs. split; [done|].
  unfold sorted_pair in He. destruct (String.ltb n vertex); simplify_eq.
  - right. eauto.
  - left. eauto.
Qed.

Lemma edges_sorted_and_from_input_witness :
  String.leb "A" "B" = true
  ∧ ((∃ neighbors, binary_tree_graph !! "A"%string = Some neighbors
                   ∧ "B"%string ∈ neighbors)
     ∨ (∃ neighbors, binary_tree_graph !! "B"%string = Some neighbors
                     ∧ "A"%string ∈ neighbors)).
Proof.
  apply (edges_sorted_and_from_input binary_tree_graph "A" "B").
  vm_compute. reflexivity.
Defined.

(** ** The stale [new_path] of [get_shortest_bfs_path] *)

(** C1.  The test [neighbour == target] of [get_shortest_bfs_path] is outside
    the [if neighbour not in old_path] block that assigns [new_path].  On the
    graph whose only vertex A is its own neighbour, the query from A to A
    meets the target before [new_path] was ever assigned and raises
    [UnboundLocalError], whatever fuel it is given. *)
Theorem get_shortest_bfs_path_raises_on_self_loop (fuel : nat) :
  get_shortest_bfs_path (S fuel) (Graph_init self_loop_graph) "A" "A"
  = Some (Raised UnboundLocalError).
Proof. vm_compute. reflexivity. Qed.

(** C3.  On the graph with the two edges A-B and B-A, the query from A to A
    returns the path (A, B) left in [new_path] by the previous iteration,
    which is not empty and does not end at A, and the length query answers
    1. *)
Theorem get_shortest_bfs_path_same_vertex_stale (fuel : nat) :
  get_shortest_bfs_path (S (S fuel)) (Graph_init two_cycle_graph) "A" "A"
  = Some (Returned ["A"; "B"]%string)
  ∧ get_shortest_bfs_path_length (S (S fuel)) (Graph_init two_cycle_graph)
      "A" "A" = Some (Returned 1%Z).
Proof. split; vm_compute; reflexivity. Qed.

(** ** Termination of the traversals *)

Section Traversal.
Variable g : Graph.

Lemma get_neighbors_cases (v : string) :
  get_neighbors g v = []
  ∨ get_neighbors g v ∈ (map_to_list (adjacency_list g)).*2.
Proof.
  unfold get_neighbors. case_decide; [by left|].
  destruct (adjacency_list g !! v) as [ns|] eqn:Hv; [right|by left].
  apply list_elem_of_fmap. exists (v, ns).
  split; [done|]. by apply elem_of_map_to_list.
Qed.

Lemma get_neighbors_nodes (v n : string) :
  n ∈ get_neighbors g v → n ∈ nodes g.
Proof.
  destruct (get_neighbors_cases v) as [->|H]; [by intros ?%elem_of_nil|].
  intros Hn. apply list_elem_of_join. eauto.
Qed.

Lemma length_concat_elem (ls : list (list string)) (l : list string) :
  l ∈ ls → length l ≤ length (mjoin ls).
Proof.
  induction 1 as [|? ? ? _ IH]; simpl; rewrite length_app; lia.
Qed.

Lemma get_neighbors_length (v : string) :
  length (get_neighbors g v) ≤ length (nodes g).
Proof.
  destruct (get_neighbors_cases v) as [->|H]; [simpl; lia|].
  by apply length_concat_elem.
Qed.

Lemma unused_le (p : list string) : unused g p ≤ length (nodes g).
Proof. apply length_filter. Qed.

Lemma filter_fresh_snoc (p l : list string) (n : string) :
  length (filter (λ x, x ∉ p ++ [n]) l) ≤ length (filter (λ x, x ∉ p) l)
  ∧ (n ∈ l → n ∉ p →
     length (filter (λ x, x ∉ p ++ [n]) l) < length (filter (λ x, x ∉ p) l)).
Proof.
  induction l as [|x l [IH1 IH2]]; [split; [done|by intros ?%elem_of_nil]|].
  rewrite !filter_cons.
  destruct (decide (x ∉ p ++ [n])) as [Hx|Hx].
  - apply not_elem_of_app in Hx as [Hx Hxn].
    rewrite decide_True by done. simpl. split; [lia|].
    intros [->|Hn]%elem_of_cons Hp.
    + exfalso. apply Hxn. by left.
    + specialize (IH2 Hn Hp). lia.
  - destruct (decide (x ∉ p)); simpl; split; try lia.
    intros [->|Hn]%elem_of_cons Hp; [tauto|]. by apply IH2.
Qed.

Lemma unused_snoc (p : list string) (n : string) :
  n ∈ nodes g → n ∉ p → unused g (p ++ [n]) < unused g p.
Proof. apply filter_fresh_snoc. Qed.

Lemma weight_S (b d : nat) : weight b d ≤ weight b (S d).
Proof. induction d as [|d IH]; simpl in *; nia. Qed.

Lemma weight_mono (b d d' : nat) : d ≤ d' → weight b d ≤ weight b d'.
Proof.
  induction 1 as [|d' _ IH]; [done|].
  etrans; [apply IH | apply weight_S].
Qed.

Lemma queue_weight_cons (p : list string) (q : list (list string)) :
  queue_weight g (p :: q) = path_weight g p + queue_weight g q.
Proof. reflexivity. Qed.

Lemma queue_weight_app (q q' : list (list string)) :
  queue_weight g (q ++ q') = queue_weight g q + queue_weight g q'.
Proof. apply sum_list_with_app. Qed.

Lemma path_weight_pos (p : list string) : 0 < path_weight g p.
Proof. unfold path_weight. destruct (unused g p); simpl; lia. Qed.

(** Replacing a path by its extensions lowers the weight of the queue. *)
Lemma extensions_weight (h ns : list string) :
  Forall (λ n, n ∈ nodes g ∧ n ∉ h) ns →
  length ns ≤ length (nodes g) →
  queue_weight g ((λ n, h ++ [n]) <$> ns) < path_weight g h.
Proof.
  intros Hns Hlen.
  assert (queue_weight g ((λ n, h ++ [n]) <$> ns)
          ≤ length ns * weight (length (nodes g)) (pred (unused g h))) as Hsum.
  { clear Hlen. induction Hns as [|n ns [Hn Hh] _ IH]; [simpl; lia|].
    pose proof (unused_snoc h n Hn Hh).
    assert (path_weight g (h ++ [n])
            ≤ weight (length (nodes g)) (pred (unused g h)))
      by (apply weight_mono; lia).
    rewrite fmap_cons, queue_weight_cons, length_cons. lia. }
  destruct ns as [|n ns]; [simpl; apply path_weight_pos|].
  apply Forall_cons in Hns as [[Hn Hh] _].
  pose proof (unused_snoc h n Hn Hh).
  unfold path_weight at 1. destruct (unused g h) as [|d] eqn:Hd; [lia|].
  simpl in *.
  assert (length (n :: ns) * weight (length (nodes g)) d
          ≤ length (nodes g) * weight (length (nodes g)) d)
    by (apply Nat.mul_le_mono_r; done).
  simpl in *. lia.
Qed.

Lemma step_weight (P : string → Prop) `{!∀ n, Decision (P n)}
    (h : list string) (u : string) (q : list (list string)) :
  (∀ n, P n → n ∉ h) →
  queue_weight g (q ++ ((λ n, h ++ [n]) <$> filter P (get_neighbors g u)))
  < queue_weight g (h :: q).
Proof.
  intros HP. rewrite queue_weight_app, queue_weight_cons.
  assert (queue_weight g ((λ n, h ++ [n]) <$> filter P (get_neighbors g u))
          < path_weight g h); [|lia].
  apply extensions_weight.
  - apply Forall_forall. intros n [Hn Hin]%list_elem_of_filter.
    split; [by eapply get_neighbors_nodes | auto].
  - etrans; [apply length_filter | apply get_neighbors_length].
Qed.

Lemma queue_weight_start (start : string) :
  queue_weight g [[start]] < (bfs_budget g).
Proof.
  unfold queue_weight, bfs_budget, path_weight. simpl.
  pose proof (weight_mono (length (nodes g)) _ _ (unused_le [start])). lia.
Qed.

(** *** [get_shortest_bfs_path] *)

Lemma bfs_for_Next (target : string) (h ns : list string)
    (q q' : list (list string)) (np np' : option (list string)) :
  bfs_for target h ns q np = Next (q', np') →
  q' = q ++ ((λ n, h ++ [n]) <$> filter (λ n, n ∉ h) ns) ∧ target ∉ ns.
Proof.
  revert q np. induction ns as [|n ns IH]; intros q np; simpl.
  - intros [= <- <-]. rewrite app_nil_r. split; [done|]. by intros ?%elem_of_nil.
  - rewrite filter_cons.
    destruct (decide (n ∉ h)); (destruct (decide (n = target));
      [by destruct np|]); intros [-> Ht]%IH; simpl.
    + rewrite <- app_assoc. split; [done|].
      intros [->|?]%elem_of_cons; done.
    + split; [done|]. intros [->|?]%elem_of_cons; done.
Qed.

Lemma bfs_while_terminates (target : string) (fuel : nat)
    (q : list (list string)) (np : option (list string)) :
  queue_weight g q < fuel → is_Some (bfs_while fuel g target q np).
Proof.
  revert q np. induction fuel as [|fuel IH]; intros q np Hq; [lia|].
  simpl. destruct q as [|h q]; [done|].
  destruct (last h) as [u|]; [|done].
  destruct (bfs_for target h (get_neighbors g u) q np)
    as [[q' np']| |] eqn:Hfor; [|done..].
  apply bfs_for_Next in Hfor as [-> _]. apply IH.
  pose proof (step_weight (λ n, n ∉ h) h u q (λ _ H, H)). lia.
Qed.

Lemma bfs_while_fuel_mono (target : string) (fuel fuel' : nat)
    (q : list (list string)) (np : option (list string))
    (r : outcome (list string)) :
  bfs_while fuel g target q np = Some r → fuel ≤ fuel' →
  bfs_while fuel' g target q np = Some r.
Proof.
  revert fuel' q np. induction fuel as [|fuel IH]; intros fuel' q np; [done|].
  destruct fuel' as [|fuel']; [lia|]. simpl.
  destruct q as [|h q]; [done|].
  destruct (last h) as [u|]; [|done].
  destruct (bfs_for target h (get_neighbors g u) q np)
    as [[q' np']| |]; [|done..].
  intros H ?. apply IH; [done | lia].
Qed.

Lemma get_shortest_bfs_path_terminates (start target : string) :
  ∃ r, ∀ fuel, (bfs_budget g) ≤ fuel →
               get_shortest_bfs_path fuel g start target = Some r.
Proof.
  destruct (bfs_while_terminates target (bfs_budget g) [[start]] None)
    as [r Hr]; [apply queue_weight_start|].
  exists r. intros fuel Hfuel. by eapply bfs_while_fuel_mono.
Qed.

(** *** [get_all_shortest_bfs_paths] *)

Lemma all_for_queue (target : string) (h ns : list string) (st : all_state) :
  queue (foldl (all_body target h) st ns)
  = queue st ++ ((λ n, h ++ [n]) <$> filter (λ n, (n ∉ h) ∧ n ≠ target) ns).
Proof.
  revert st. induction ns as [|n ns IH]; intros st; simpl.
  - by rewrite app_nil_r.
  - rewrite IH, filter_cons. unfold all_body.
    destruct (decide (n ∉ h)); [destruct (decide (n = target))|].
    + rewrite decide_False by tauto.
      by destruct (int_le _ _).
    + rewrite decide_True by done. simpl. by rewrite <- app_assoc.
    + by rewrite decide_False by tauto.
Qed.

Lemma all_while_terminates (target : string) (fuel : nat) (st : all_state) :
  queue_weight g (queue st) < fuel → is_Some (all_while fuel g target st).
Proof.
  revert st. induction fuel as [|fuel IH]; intros st Hq; [lia|].
  simpl. destruct (queue st) as [|h q]; [done|].
  destruct (last h) as [u|]; [|done].
  apply IH. rewrite all_for_queue. simpl.
  pose proof (step_weight (λ n, (n ∉ h) ∧ n ≠ target) h u q
                          (λ _ H, proj1 H)).
  lia.
Qed.

Lemma all_while_fuel_mono (target : string) (fuel fuel' : nat)
    (st : all_state) (r : outcome all_state) :
  all_while fuel g target st = Some r → fuel ≤ fuel' →
  all_while fuel' g target st = Some r.
Proof.
  revert fuel' st. induction fuel as [|fuel IH]; intros fuel' st; [done|].
  destruct fuel' as [|fuel']; [lia|]. simpl.
  destruct (queue st) as [|h q]; [done|].
  destruct (last h) as [u|]; [|done].
  intros H ?. apply IH; [done | lia].
Qed.

Lemma get_all_shortest_bfs_paths_terminates (source target : string) :
  ∃ r, ∀ fuel, (bfs_budget g) ≤ fuel →
               get_all_shortest_bfs_paths fuel g source target = Some r.
Proof.
  destruct (all_while_terminates target (bfs_budget g) (mkAll ∅ [[source]] Inf))
    as [r Hr]; [apply queue_weight_start|].
  unfold get_all_shortest_bfs_paths.
  exists (match r with
          | Returned st =>
              Returned (filter (λ path, Int (len path) = min_length st)
                               (paths st))
          | Raised e => Raised e
          end).
  intros fuel Hfuel.
  rewrite (all_while_fuel_mono _ _ _ _ _ Hr Hfuel). by destruct r.
Qed.

(** *** [get_all_ladders] *)

Lemma for_each_is_Some {A S : Type} (body : S → A → option S)
    (l : list A) (s : S) :
  (∀ s a, a ∈ l → is_Some (body s a)) → is_Some (for_each body l s).
Proof.
  revert s. induction l as [|a l IH]; intros s Hbody; simpl; [done|].
  destruct (Hbody s a) as [s' ->]; [left|].
  apply IH. intros ???. apply Hbody. by right.
Qed.

Lemma for_each_mono {A S : Type} (body body' : S → A → option S)
    (l : list A) (s r : S) :
  (∀ s a r, body s a = Some r → body' s a = Some r) →
  for_each body l s = Some r → for_each body' l s = Some r.
Proof.
  intros Hbody. revert s. induction l as [|a l IH]; intros s; simpl; [done|].
  destruct (body s a) as [s'|] eqn:Hs; [|done].
  rewrite (Hbody _ _ _ Hs). apply IH.
Qed.

Lemma find_ladders_terminates (target : string) (max_rungs : number)
    (fuel : nat) (current_word : string) (path : list string)
    (ladders : gset (list string)) :
  unused g path < fuel →
  is_Some (find_ladders fuel g target max_rungs current_word path ladders).
Proof.
  revert current_word path ladders.
  induction fuel as [|fuel IH]; intros cur path L Hfuel; [lia|].
  simpl. destruct (int_gt _ _); [done|]. case_decide; [done|].
  apply for_each_is_Some. intros L' n Hn.
  case_decide as Hfresh; [|done]. apply IH.
  pose proof (unused_snoc path n (get_neighbors_nodes _ _ Hn) Hfresh). lia.
Qed.

Lemma find_ladders_fuel_mono (target : string) (max_rungs : number)
    (fuel fuel' : nat) (current_word : string) (path : list string)
    (ladders r : gset (list string)) :
  find_ladders fuel g target max_rungs current_word path ladders = Some r →
  fuel ≤ fuel' →
  find_ladders fuel' g target max_rungs current_word path ladders = Some r.
Proof.
  revert fuel' current_word path ladders r.
  induction fuel as [|fuel IH]; intros fuel' cur path L r; [done|].
  destruct fuel' as [|fuel']; [lia|]. simpl.
  destruct (int_gt _ _); [done|]. case_decide; [done|].
  intros Hfor ?. eapply for_each_mono, Hfor.
  intros L' n r'; simpl. case_decide; [|done].
  intros ?. apply IH; [done | lia].
Qed.

Lemma get_all_ladders_terminates (start target : string)
    (max_rungs : number) :
  ∃ r, ∀ fuel, (depth_budget g) ≤ fuel →
               get_all_ladders fuel g start target max_rungs = Some r.
Proof.
  unfold get_all_ladders. case_decide; [by eexists|].
  destruct (find_ladders_terminates target max_rungs (depth_budget g)
              (lower start) [lower start] ∅) as [r Hr].
  { pose proof (unused_le [lower start]). unfold depth_budget. lia. }
  exists r. intros fuel Hfuel. by eapply find_ladders_fuel_mono.
Qed.

End Traversal.


(** ** Walks *)

Section Walks.
Variable g : Graph.

Lemma walk_nil : walk g [].
Proof. intros i u v H. by rewrite lookup_nil in H. Qed.

Lemma walk_singleton (s : string) : walk g [s].
Proof. intros i u v _ H. by rewrite lookup_cons, lookup_nil in H. Qed.

Lemma walk_prefix (p q : list string) : p `prefix_of` q → walk g q → walk g p.
Proof.
  intros [k ->] Hq i u v Hu Hv.
  apply (Hq i); by apply lookup_app_l_Some.
Qed.

Lemma walk_snoc (p : list string) (n : string) :
  walk g (p ++ [n])
  ↔ walk g p ∧ ∀ u, last p = Some u → n ∈ get_neighbors g u.
Proof.
  split.
  - intros Hw. split; [eapply walk_prefix, Hw; by exists [n]|].
    intros u Hu. rewrite last_lookup in Hu.
    assert (length p ≠ 0) by (intros Hl; destruct p; simplify_eq/=).
    apply (Hw (pred (length p))); [by apply lookup_app_l_Some|].
    replace (S (pred (length p))) with (length p + 0) by lia.
    by rewrite lookup_app_r, Nat.add_comm, Nat.add_sub by lia.
  - intros [Hp Hn] i u v Hu Hv.
    apply lookup_snoc_Some in Hv as [[Hlt Hv]|[Hlen ->]].
    + apply (Hp i); [|done]. rewrite lookup_app_l in Hu by lia. done.
    + apply Hn. rewrite last_lookup, <- Hlen. simpl.
      rewrite lookup_app_l in Hu by lia. done.
Qed.

Lemma walk_cons (u : string) (p : list string) :
  walk g (u :: p)
  ↔ walk g p ∧ ∀ v, head p = Some v → v ∈ get_neighbors g u.
Proof.
  split.
  - intros Hw. split.
    + intros i a b Ha Hb. by apply (Hw (S i)).
    + intros v Hv. apply (Hw 0); [done|]. by rewrite head_lookup in Hv.
  - intros [Hp Hv] [|i] a b Ha Hb; simplify_eq/=.
    + apply Hv. by rewrite head_lookup.
    + by apply (Hp i).
Qed.

Lemma walk_suffix (p q : list string) : walk g (p ++ q) → walk g q.
Proof.
  induction p as [|u p IH]; [done|]. simpl. intros [H _]%walk_cons. auto.
Qed.

End Walks.

(** ** [get_all_ladders] on an arbitrary graph *)

Section Ladders.
Variable g : Graph.
Variable target : string.
Variable max_rungs : number.

Lemma for_each_union {A : Type}
    (body : gset (list string) → A → option (gset (list string)))
    (R : A → list string → Prop) (l : list A) (s s' : gset (list string)) :
  (∀ s a s', a ∈ l → body s a = Some s' → ∀ q, q ∈ s' ↔ q ∈ s ∨ R a q) →
  for_each body l s = Some s' →
  ∀ q, q ∈ s' ↔ q ∈ s ∨ ∃ a, a ∈ l ∧ R a q.
Proof.
  revert s. induction l as [|a l IH]; intros s Hbody; simpl.
  - intros [= <-] q. split; [auto|].
    intros [?|(?&H&_)]; [done|]. by apply elem_of_nil in H.
  - destruct (body s a) as [s1|] eqn:Hs1; [|done]. intros Hfor q.
    rewrite (IH s1 (λ s0 a0 s0' Ha0,
                      Hbody s0 a0 s0' (list_elem_of_further _ _ _ Ha0)) Hfor).
    rewrite (Hbody s a s1 (list_elem_of_here _ _) Hs1). split.
    + intros [[?|?]|(a'&?&?)]; [by left|right..].
      * exists a. split; [left|done].
      * exists a'. split; [by right|done].
    + intros [?|(a'&[->|?]%elem_of_cons&?)];
        [by left; left|by left; right|right; by exists a'].
Qed.

Lemma find_ladders_spec (fuel : nat) (current_word : string)
    (path : list string) (ladders ladders' : gset (list string)) :
  find_ladders fuel g target max_rungs current_word path ladders
  = Some ladders' →
  ∀ q, q ∈ ladders'
       ↔ q ∈ ladders ∨ ladder_from g target max_rungs current_word path q.
Proof.
  revert current_word path ladders ladders'.
  induction fuel as [|fuel IH]; intros cur path L L'; [done|]. simpl.
  destruct (int_gt _ _) eqn:Hgt.
  { intros [= <-] q. split; [auto|]. intros [?|H]; [done|].
    destruct H; congruence. }
  case_decide as Hcur.
  { intros [= <-] q. rewrite elem_of_union, elem_of_singleton. split.
    - intros [->|?]; [right; by constructor|by left].
    - intros [?|H]; [by right|]. destruct H; [by left|done]. }
  intros Hfor q.
  eapply (for_each_union _
            (λ n q, (n ∉ path)
                    ∧ ladder_from g target max_rungs n (path ++ [n]) q))
    in Hfor.
  - rewrite Hfor. split.
    + intros [?|(n&?&?&?)]; [by left|right]. by eapply ladder_step.
    + intros [?|H]; [by left|right]. destruct H; [done|]. eauto.
  - intros s n s' Hn. simpl. case_decide.
    + intros Hrec q'. rewrite (IH _ _ _ _ Hrec). tauto.
    + intros [= <-] q'. tauto.
Qed.

Lemma ladder_from_sound (current_word : string) (path q : list string) :
  ladder_from g target max_rungs current_word path q →
  walk g path → NoDup path → last path = Some current_word →
  path `prefix_of` q ∧ ladder g target max_rungs q.
Proof.
  induction 1 as [cur path Hgt Hcur|cur path n q Hgt Hcur Hn Hfresh _ IH];
    intros Hw Hnd Hlast.
  - split; [done|]. repeat split; [done..|congruence|done].
  - destruct IH as [Hpre Hq].
    + apply walk_snoc. split; [done|]. intros u Hu. congruence.
    + apply NoDup_app. split; [done|]. split; [|apply NoDup_singleton].
      intros x ? ->%list_elem_of_singleton. done.
    + apply last_snoc.
    + split; [|done]. etrans; [|done]. by exists [n].
Qed.

Lemma int_gt_prefix (p q : list string) :
  p `prefix_of` q →
  int_gt (len q) (number_succ max_rungs) = false →
  int_gt (len p) (number_succ max_rungs) = false.
Proof.
  intros Hpre%prefix_length. unfold int_gt, len.
  destruct (number_succ max_rungs); [|done].
  rewrite !Z.ltb_ge. lia.
Qed.

Lemma ladder_from_complete (ext : list string) (current_word : string)
    (path : list string) :
  last path = Some current_word → ladder g target max_rungs (path ++ ext) →
  ladder_from g target max_rungs current_word path (path ++ ext).
Proof.
  revert current_word path.
  induction ext as [|n ext IH]; intros cur path Hlast (Hw & Hnd & Hend & Hgt).
  - rewrite app_nil_r in *. constructor; [done | congruence].
  - assert ((n ∉ path) ∧ (lower target ∉ path)) as [Hn Ht].
    { apply NoDup_app in Hnd as (_ & Hdisj & _). split.
      - intros ?%Hdisj. set_solver.
      - intros Hin%Hdisj. apply Hin.
        rewrite last_app_cons in Hend. by eapply last_Some_elem_of. }
    apply ladder_step with n.
    + eapply int_gt_prefix, Hgt. by eexists.
    + intros ->. apply Ht. by apply last_Some_elem_of.
    + eapply (walk_prefix _ (path ++ [n])) in Hw;
        [|by exists ext; rewrite <- app_assoc].
      apply walk_snoc in Hw as [_ Hw]. auto.
    + done.
    + replace (path ++ n :: ext) with ((path ++ [n]) ++ ext)
        by (by rewrite <- app_assoc).
      apply IH; [apply last_snoc|].
      rewrite <- app_assoc. done.
Qed.

(** [find_ladders] from the one-vertex path adds exactly the ladders that
    start there. *)
Lemma ladder_from_start (start : string) (q : list string) :
  ladder_from g target max_rungs start [start] q
  ↔ head q = Some start ∧ ladder g target max_rungs q.
Proof.
  split.
  - intros H. apply ladder_from_sound in H as [[k ->] Hq];
      [done|apply walk_singleton|apply NoDup_singleton|done].
  - intros [[k ->]%head_Some Hq].
    by apply (ladder_from_complete k start [start]).
Qed.

End Ladders.

(** ** The adjacency map of a [LadderGraph] *)

Lemma int_gt_false (n : Z) (m : number) : int_gt n m = false ↔ at_most n m.
Proof. destruct m; simpl; [apply Z.ltb_ge | done]. Qed.

Lemma build_inner (word : string) (s : list string)
    (adj_list : gmap string (list string)) (l : list string) :
  foldl (λ adj_list other_word,
           if decide (word ≠ lower other_word
                      ∧ hamming_distance word (lower other_word) = 1)
           then alter (set_add (lower other_word)) word adj_list
           else adj_list)
        (<[word := s]> adj_list) l
  = <[word := foldl (λ s other_word,
                       if decide (word ≠ lower other_word
                                  ∧ hamming_distance word (lower other_word) = 1)
                       then set_add (lower other_word) s else s) s l]> adj_list.
Proof.
  revert s. induction l as [|o l IH]; intros s; simpl; [done|].
  case_decide; [|done]. by rewrite alter_insert_eq.
Qed.

Lemma build_outer (word_list l : list string)
    (m : gmap string (list string)) (u : string) :
  foldl (λ adj_list word,
           foldl (λ adj_list other_word,
                    if decide (lower word ≠ lower other_word
                               ∧ hamming_distance (lower word)
                                                  (lower other_word) = 1)
                    then alter (set_add (lower other_word)) (lower word)
                               adj_list
                    else adj_list)
                 (<[lower word := []]> adj_list) word_list)
        m l !! u
  = if decide (u ∈ lower <$> l) then Some (ladder_neighbors u word_list)
    else m !! u.
Proof.
  revert m. induction l as [|w l IH]; intros m; [done|].
  rewrite fmap_cons. cbn [foldl]. rewrite IH, build_inner.
  fold (ladder_neighbors (lower w) word_list).
  destruct (decide (u ∈ lower <$> l)) as [Hin|Hin].
  - rewrite decide_True; [done|]. by right.
  - destruct (decide (u = lower w)) as [->|Hne].
    + rewrite lookup_insert_eq, decide_True; [done|]. left.
    + rewrite lookup_insert_ne by done. rewrite decide_False; [done|].
      by intros [?|?]%elem_of_cons.
Qed.

Lemma build_adj_list_lookup (word_list : list string) (u : string) :
  build_adj_list word_list !! u
  = if decide (u ∈ lower <$> word_list)
    then Some (ladder_neighbors u word_list) else None.
Proof.
  unfold build_adj_list. cbv zeta.
  by rewrite build_outer, lookup_empty.
Qed.

Lemma elem_of_set_add (x y : string) (s : list string) :
  x ∈ set_add y s ↔ x = y ∨ x ∈ s.
Proof.
  unfold set_add. case_decide.
  - split; [auto|]. by intros [->|?].
  - rewrite elem_of_app, list_elem_of_singleton. tauto.
Qed.

Lemma elem_of_ladder_neighbors (u w : string) (word_list : list string) :
  w ∈ ladder_neighbors u word_list
  ↔ w ∈ lower <$> word_list ∧ u ≠ w ∧ hamming_distance u w = 1.
Proof.
  unfold ladder_neighbors.
  enough (∀ l s,
    w ∈ foldl (λ s other_word,
                 if decide (u ≠ lower other_word
                            ∧ hamming_distance u (lower other_word) = 1)
                 then set_add (lower other_word) s else s) s l
    ↔ w ∈ s ∨ (w ∈ lower <$> l ∧ u ≠ w ∧ hamming_distance u w = 1)) as H.
  { rewrite H. split; [|auto]. intros [?%elem_of_nil|?]; done. }
  induction l as [|o l IH]; intros s; simpl.
  - split; [auto|]. intros [?|[?%elem_of_nil _]]; done.
  - rewrite IH, elem_of_cons. case_decide as Hc.
    + rewrite elem_of_set_add. split.
      * intros [[->|?]|(?&?&?)]; [right|by left|right]; tauto.
      * intros [?|([->|?]&?&?)]; tauto.
    + split; [tauto|]. intros [?|([->|?]&?&?)]; tauto.
Qed.

Section LadderGraph.
Variable g : Graph.
Variable word_list : list string.
Hypothesis Hg : ladder_graph g word_list.

Lemma ladder_graph_vertices : vertices g = list_to_set (lower <$> word_list).
Proof.
  destruct Hg as (adj & -> & Hadj). simpl.
  apply set_eq. intros u. rewrite elem_of_dom, elem_of_list_to_set.
  specialize (Hadj u). rewrite build_adj_list_lookup in Hadj.
  case_decide; inversion Hadj; split; (done || by intros [??]).
Qed.

Lemma ladder_graph_neighbors (u w : string) :
  w ∈ get_neighbors g u
  ↔ u ∈ lower <$> word_list ∧ w ∈ lower <$> word_list
    ∧ u ≠ w ∧ hamming_distance u w = 1.
Proof.
  pose proof ladder_graph_vertices as Hv.
  destruct Hg as (adj & -> & Hadj). unfold get_neighbors.
  specialize (Hadj u). rewrite build_adj_list_lookup in Hadj.
  assert (u ∈ vertices (Graph_init adj) ↔ u ∈ lower <$> word_list) as Hiff
    by (rewrite Hv; apply elem_of_list_to_set).
  destruct (decide (u ∈ lower <$> word_list)) as [Hu|Hu].
  - rewrite decide_False by tauto.
    simpl. inversion Hadj as [ns ns' Hperm|]; subst. simpl.
    rewrite Hperm, elem_of_ladder_neighbors. tauto.
  - rewrite decide_True by tauto.
    split; [by intros ?%elem_of_nil|tauto].
Qed.

(** On a ladder graph the paths of [get_neighbors] are the ladders. *)
Lemma ladder_graph_walk (s t : string) (q : list string) :
  s ∈ lower <$> word_list →
  head q = Some s ∧ last q = Some t ∧ NoDup q ∧ walk g q
  ↔ simple_ladder word_list s t q.
Proof.
  intros Hs. unfold simple_ladder. split.
  - intros (Hhead & Hlast & Hnd & Hw). repeat split; try done.
    + intros w [i Hi]%list_elem_of_lookup. destruct i as [|i].
      * rewrite head_lookup in Hhead. congruence.
      * destruct (lookup_lt_is_Some_2 q i) as [u Hu];
          [apply lookup_lt_Some in Hi; lia|].
        apply (Hw i u w Hu), ladder_graph_neighbors in Hi. tauto.
    + intros i u v Hu Hv.
      apply (Hw i u v Hu), ladder_graph_neighbors in Hv. tauto.
  - intros (Hhead & Hlast & Hnd & Hknown & Hham). repeat split; try done.
    intros i u v Hu Hv. apply ladder_graph_neighbors.
    repeat split; eauto using list_elem_of_lookup_2.
    intros ->. pose proof (NoDup_lookup _ _ _ _ Hnd Hu Hv). lia.
Qed.

End LadderGraph.

Lemma LadderGraph_init_ladder_graph (word_list : list string) :
  ladder_graph (LadderGraph_init word_list) word_list.
Proof. exists (build_adj_list word_list). split; [done|]. by intros v. Qed.

(** C6.  In a graph constructed by [LadderGraph] the vertices are the
    lowercased words, and two distinct vertices are neighbours exactly when
    their Hamming distance, counted over the length of the shorter word, is
    1.  No vertex is its own neighbour, and words of different lengths can
    be neighbours: ab and acd are. *)
Theorem ladder_graph_adjacency (g : Graph) (word_list : list string) :
  ladder_graph g word_list →
  vertices g = list_to_set (lower <$> word_list)
  ∧ (∀ u w, u ∈ vertices g → w ∈ vertices g → u ≠ w →
       (w ∈ get_neighbors g u ↔ hamming_distance u w = 1))
  ∧ (∀ u, u ∉ get_neighbors g u)
  ∧ ("acd"%string ∈ get_neighbors (LadderGraph_init ["ab"; "acd"]%string) "ab"
     ∧ String.length "ab" ≠ String.length "acd").
Proof.
  intros Hg. pose proof (ladder_graph_vertices g word_list Hg) as Hv.
  split; [done|]. split; [|split].
  - intros u w Hu Hw Hne. rewrite Hv, elem_of_list_to_set in Hu, Hw.
    rewrite (ladder_graph_neighbors g word_list Hg). tauto.
  - intros u Hu. apply (ladder_graph_neighbors g word_list Hg) in Hu. tauto.
  - split; [|done]. vm_compute. apply list_elem_of_here.
Qed.

Lemma ladder_graph_adjacency_witness :
  vertices (LadderGraph_init mixed_words)
  = list_to_set (lower <$> mixed_words)
  ∧ (∀ u w, u ∈ vertices (LadderGraph_init mixed_words) →
            w ∈ vertices (LadderGraph_init mixed_words) →
            u ≠ w →
       (w ∈ get_neighbors (LadderGraph_init mixed_words) u
        ↔ hamming_distance u w = 1))
  ∧ (∀ u, u ∉ get_neighbors (LadderGraph_init mixed_words) u)
  ∧ ("acd"%string ∈ get_neighbors (LadderGraph_init ["ab"; "acd"]%string) "ab"
     ∧ String.length "ab" ≠ String.length "acd").
Proof.
  apply (ladder_graph_adjacency
           (LadderGraph_init mixed_words)
           mixed_words).
  exists (build_adj_list mixed_words).
  split; [reflexivity|]. intros v. reflexivity.
Defined.

(** ** [get_all_ladders] on a ladder graph *)

Lemma get_all_ladders_known (g : Graph) (start target : string)
    (max_rungs : number) (fuel : nat) (ladders : gset (list string)) :
  lower start ∈ vertices g → lower target ∈ vertices g →
  get_all_ladders fuel g start target max_rungs = Some ladders →
  ∀ q, q ∈ ladders
       ↔ head q = Some (lower start) ∧ ladder g target max_rungs q.
Proof.
  intros Hs Ht. unfold get_all_ladders.
  rewrite decide_False by tauto. intros Hfind q.
  rewrite (find_ladders_spec _ _ _ _ _ _ _ _ Hfind), ladder_from_start.
  split; [intros [?%not_elem_of_empty|?]; done | auto].
Qed.

(** C5 (amended).  On a graph constructed by [LadderGraph],
    [get_all_ladders start target max_rungs] returns, when both lowercased
    endpoints are vertices, exactly the simple paths from [start] to
    [target] along Hamming-distance-1 edges that have at most
    [max_rungs + 1] vertices; it returns the empty set when an endpoint is
    unknown; and when [start] equals [target] and [max_rungs] is not
    negative it returns the single one-vertex ladder. *)
Theorem get_all_ladders_enumerates (g : Graph) (word_list : list string)
    (start target : string) (max_rungs : number) :
  ladder_graph g word_list →
  ∃ ladders,
    (∀ fuel, depth_budget g ≤ fuel →
       get_all_ladders fuel g start target max_rungs = Some ladders)
    ∧ (lower start ∈ vertices g → lower target ∈ vertices g →
       ∀ q, q ∈ ladders
            ↔ simple_ladder word_list (lower start) (lower target) q
              ∧ at_most (len q) (number_succ max_rungs))
    ∧ (lower start ∉ vertices g ∨ lower target ∉ vertices g → ladders = ∅)
    ∧ (lower start = lower target → lower start ∈ vertices g →
       at_most 0 max_rungs → ladders = {[ [lower start] ]}).
Proof.
  intros Hg.
  destruct (get_all_ladders_terminates g start target max_rungs)
    as [ladders Hrun].
  specialize (Hrun (depth_budget g) (le_n _)) as Hbudget.
  exists ladders. split; [done|]. split; [|split].
  - intros Hs Ht q.
    rewrite (get_all_ladders_known _ _ _ _ _ _ Hs Ht Hbudget).
    unfold ladder. rewrite int_gt_false.
    rewrite <- (ladder_graph_walk g word_list Hg);
      [tauto|].
    rewrite (ladder_graph_vertices g word_list Hg) in Hs.
    by apply elem_of_list_to_set in Hs.
  - intros Hunknown. unfold get_all_ladders in Hbudget.
    rewrite decide_True in Hbudget by done. congruence.
  - intros Heq Hs Hmax. unfold get_all_ladders in Hbudget.
    rewrite decide_False in Hbudget by (rewrite <- Heq; tauto).
    unfold depth_budget in Hbudget. simpl in Hbudget.
    replace (int_gt (len [lower start]) (number_succ max_rungs)) with false
      in Hbudget.
    + rewrite decide_True in Hbudget by done.
      rewrite (right_id_L ∅ (∪)) in Hbudget. congruence.
    + symmetry. apply int_gt_false.
      destruct max_rungs; simpl in *; [|done]. unfold len. simpl. lia.
Qed.

Lemma get_all_ladders_enumerates_witness :
  ∃ ladders,
    (∀ fuel, depth_budget (LadderGraph_init three_words) ≤ fuel →
       get_all_ladders fuel (LadderGraph_init three_words)
                       "AB" "bc" (Int 2) = Some ladders)
    ∧ (lower "AB" ∈ vertices (LadderGraph_init three_words) →
       lower "bc" ∈ vertices (LadderGraph_init three_words) →
       ∀ q, q ∈ ladders
            ↔ simple_ladder three_words (lower "AB") (lower "bc") q
              ∧ at_most (len q) (number_succ (Int 2)))
    ∧ (lower "AB" ∉ vertices (LadderGraph_init three_words)
       ∨ lower "bc" ∉ vertices (LadderGraph_init three_words) →
       ladders = ∅)
    ∧ (lower "AB" = lower "bc" →
       lower "AB" ∈ vertices (LadderGraph_init three_words) →
       at_most 0 (Int 2) → ladders = {[ [lower "AB"] ]}).
Proof.
  apply (get_all_ladders_enumerates
           (LadderGraph_init three_words)
           three_words "AB" "bc" (Int 2)).
  exists (build_adj_list three_words).
  split; [reflexivity|]. intros v. reflexivity.
Defined.

Example get_all_ladders_ab_bc :
  get_all_ladders 4 (LadderGraph_init three_words)
                  "AB" "bc" (Int 2)
  = Some {[ three_words ]}.
Proof. vm_compute. reflexivity. Qed.

(** C5, as stated, fails for a negative bound: with [start] equal to
    [target], both known, and [max_rungs = -1], the guard
    [len(path) > max_rungs + 1] turns the one-vertex path away and the
    result is the empty set, not the set of the one-vertex ladder. *)
Lemma get_all_ladders_negative_bound :
  is_valid_word (LadderGraph_init ["ab"%string]) "ab" = true
  ∧ get_all_ladders (depth_budget (LadderGraph_init ["ab"%string]))
                    (LadderGraph_init ["ab"%string]) "ab" "ab" (Int (-1))
    = Some ∅
  ∧ (∅ : gset (list string)) ≠ {[ ["ab"%string] ]}.
Proof.
  split; [vm_compute; reflexivity|]. split; [vm_compute; reflexivity|].
  intros H. apply (not_elem_of_empty (C:=gset (list string)) ["ab"%string]).
  rewrite H. by apply elem_of_singleton.
Qed.

(** ** The frontier of the breadth-first searches *)

Section Search.
Variable g : Graph.
Variables start target : string.

Lemma filter_fresh_no_target (h ns : list string) :
  target ∉ ns →
  filter (λ n, n ∉ h) ns = filter (λ n, (n ∉ h) ∧ n ≠ target) ns.
Proof.
  induction ns as [|n ns IH]; [done|].
  intros [Hn Hns]%not_elem_of_cons. rewrite !filter_cons, IH by done.
  destruct (decide (n ∉ h)).
  - by rewrite decide_True.
  - by rewrite decide_False by tauto.
Qed.

Lemma frontier_expand (h : list string) (u : string) :
  frontier_path g start target h → last h = Some u →
  Forall (frontier_path g start target) (expand g target h u).
Proof.
  intros (Hhead & Hw & Hnd & Ht) Hlast.
  apply Forall_forall. intros p (n & -> & Hn)%list_elem_of_fmap.
  apply list_elem_of_filter in Hn as [[Hfresh Hne] Hn].
  repeat split.
  - destruct h; simplify_eq/=. done.
  - apply walk_snoc. split; [done|]. intros u' ?. by simplify_eq.
  - apply NoDup_app. split; [done|]. split; [|apply NoDup_singleton].
    intros x ? ->%list_elem_of_singleton. done.
  - rewrite not_elem_of_app, list_elem_of_singleton. split; [done|congruence].
Qed.

Lemma expand_length (h p : list string) (u : string) :
  p ∈ expand g target h u → length p = S (length h).
Proof.
  intros (n & -> & _)%list_elem_of_fmap. rewrite length_app. simpl. lia.
Qed.

Lemma ordered_singleton (p : list string) : ordered [p].
Proof.
  intros i j p1 p2 _ [-> ->]%list_lookup_singleton_Some
    [-> ->]%list_lookup_singleton_Some. lia.
Qed.

Lemma ordered_step (h : list string) (u : string) (q : list (list string)) :
  ordered (h :: q) → ordered (q ++ expand g target h u).
Proof.
  intros Hord i j p p' Hij Hp Hp'.
  apply lookup_app_Some in Hp as [Hp|[Hi Hp]];
    apply lookup_app_Some in Hp' as [Hp'|[Hj Hp']].
  - apply (Hord (S i) (S j)); [lia|done..].
  - apply list_elem_of_lookup_2, expand_length in Hp'.
    pose proof (Hord 0 (S i) h p ltac:(lia) eq_refl Hp). lia.
  - apply lookup_lt_Some in Hp'. lia.
  - apply list_elem_of_lookup_2, expand_length in Hp, Hp'. lia.
Qed.

Lemma head_shorter (w h : list string) (q : list (list string)) :
  ordered (h :: q) → tracks w (h :: q) → length h < length w.
Proof.
  intros Hord (i & Hi & [j Hj]%list_elem_of_lookup).
  pose proof (Hord 0 j h _ ltac:(lia) eq_refl Hj) as Hlen.
  rewrite length_take in Hlen. lia.
Qed.

Lemma simple_path_last_index (w : list string) (i : nat) :
  simple_path g start target w → w !! i = Some target → S i = length w.
Proof.
  intros [(_ & Hlast & _) Hnd] Hi. rewrite last_lookup in Hlast.
  pose proof (NoDup_lookup _ _ _ _ Hnd Hi Hlast).
  apply lookup_lt_Some in Hi. lia.
Qed.

(** Dequeuing [h] keeps a prefix of [w] waiting, unless [h] is [w] without
    its last vertex. *)
Lemma tracks_step (w h : list string) (u : string) (q : list (list string)) :
  simple_path g start target w → last h = Some u → tracks w (h :: q) →
  tracks w (q ++ expand g target h u)
  ∨ (length w = S (length h) ∧ target ∈ get_neighbors g u).
Proof.
  intros Hw Hlast (i & Hi & [Hh|Hin]%elem_of_cons).
  2:{ left. exists i. split; [done|]. apply elem_of_app. by left. }
  assert (length h = S i) as Hlen by (rewrite <- Hh, length_take; lia).
  assert (w !! i = Some u) as Hu.
  { rewrite last_lookup, Hlen, <- Hh in Hlast. simpl in Hlast.
    by rewrite lookup_take_lt in Hlast by lia. }
  destruct (lookup_lt_is_Some_2 w (S i) Hi) as [v Hv].
  pose proof Hw as [(_ & _ & Hwalk) Hnd].
  pose proof (Hwalk i u v Hu Hv) as Hedge.
  destruct (decide (v = target)) as [->|Hne].
  { right. apply (simple_path_last_index _ _ Hw) in Hv. split; [lia|done]. }
  left. exists (S i). split.
  { destruct (decide (S (S i) = length w)) as [Heq|]; [|lia].
    destruct Hw as [(_ & Hl & _) _]. rewrite last_lookup, <- Heq in Hl.
    simpl in Hl. congruence. }
  apply elem_of_app. right. rewrite (take_S_r _ _ _ Hv), Hh.
  apply list_elem_of_fmap. exists v. split; [done|].
  apply list_elem_of_filter. split; [|done]. split; [|done].
  rewrite <- Hh. intros [j Hj]%list_elem_of_lookup.
  apply lookup_take_Some in Hj as [Hj Hlt].
  pose proof (NoDup_lookup _ _ _ _ Hnd Hj Hv). lia.
Qed.

(** *** [get_shortest_bfs_path] between distinct vertices *)

(** While [target] is not on the dequeued path, the value returned is the
    path just assigned to [new_path]. *)
Lemma bfs_for_fresh_target (h ns : list string) (q : list (list string))
    (np : option (list string)) :
  target ∉ h →
  match bfs_for target h ns q np with
  | Next _ => True
  | Return p => p = h ++ [target] ∧ target ∈ ns
  | Raise _ => False
  end.
Proof.
  intros Ht. revert q np. induction ns as [|n ns IH]; intros q np; simpl; [done|].
  destruct (decide (n ∉ h)) as [Hn|Hn].
  - destruct (decide (n = target)) as [->|?]; [split; [done|left]|].
    specialize (IH (q ++ [h ++ [n]]) (Some (h ++ [n]))).
    destruct (bfs_for _ _ _ _ _); [done| |done].
    destruct IH. split; [done|by right].
  - destruct (decide (n = target)) as [->|?]; [tauto|].
    specialize (IH q np).
    destruct (bfs_for _ _ _ _ _); [done| |done].
    destruct IH. split; [done|by right].
Qed.

Lemma bfs_while_sound (fuel : nat) (q : list (list string))
    (np : option (list string)) (r : outcome (list string)) :
  Forall (frontier_path g start target) q →
  bfs_while fuel g target q np = Some r →
  ∃ p, r = Returned p ∧ (p = [] ∨ simple_path g start target p).
Proof.
  revert q np. induction fuel as [|fuel IH]; intros q np Hq; [done|]. simpl.
  destruct q as [|h q]; [intros [= <-]; eauto|].
  apply Forall_cons in Hq as [Hh Hq].
  pose proof Hh as (Hhead & Hw & Hnd & Ht).
  destruct (last h) as [u|] eqn:Hlast.
  2:{ apply last_None in Hlast as ->. done. }
  pose proof (bfs_for_fresh_target h (get_neighbors g u) q np Ht) as Hfor.
  destruct (bfs_for _ _ _ _ _) as [[q' np']|p|] eqn:Heq; [| |done].
  - apply bfs_for_Next in Heq as [-> Hnt].
    rewrite filter_fresh_no_target by done. apply IH.
    apply Forall_app. split; [done|]. by apply frontier_expand.
  - destruct Hfor as [-> Hin]. intros [= <-].
    exists (h ++ [target]). split; [done|]. right. repeat split.
    + destruct h; simplify_eq/=. done.
    + apply last_snoc.
    + apply walk_snoc. split; [done|]. intros ??. by simplify_eq.
    + apply NoDup_app. split; [done|]. split; [|apply NoDup_singleton].
      intros x ? ->%list_elem_of_singleton. done.
Qed.

Lemma bfs_while_shortest (w : list string) (fuel : nat)
    (q : list (list string)) (np : option (list string)) (p : list string) :
  simple_path g start target w →
  Forall (frontier_path g start target) q → ordered q → tracks w q →
  bfs_while fuel g target q np = Some (Returned p) →
  p ≠ [] ∧ length p ≤ length w.
Proof.
  intros Hw. revert q np.
  induction fuel as [|fuel IH]; intros q np Hq Hord Htr; [done|]. simpl.
  destruct q as [|h q].
  { destruct Htr as (? & _ & []%elem_of_nil). }
  apply Forall_cons in Hq as [Hh Hq].
  pose proof Hh as (Hhead & _ & _ & Ht).
  destruct (last h) as [u|] eqn:Hlast; [|done].
  pose proof (head_shorter _ _ _ Hord Htr) as Hshort.
  pose proof (bfs_for_fresh_target h (get_neighbors g u) q np Ht) as Hfor.
  destruct (bfs_for _ _ _ _ _) as [[q' np']|p'|] eqn:Heq; [| |done].
  - apply bfs_for_Next in Heq as [-> Hnt].
    rewrite filter_fresh_no_target by done. apply IH.
    + apply Forall_app. split; [done|]. by apply frontier_expand.
    + by apply ordered_step.
    + destruct (tracks_step w h u q Hw Hlast Htr) as [?|[_ ?]]; done.
  - destruct Hfor as [-> _]. intros [= <-]. split.
    + by destruct h.
    + rewrite length_app. simpl. lia.
Qed.

End Search.

(** ** Shortening a walk to a simple path *)

Lemma not_NoDup_split (l : list string) :
  ¬ NoDup l → ∃ a x b c, l = a ++ x :: b ++ x :: c.
Proof.
  induction l as [|y l IH]; intros Hnd; [destruct Hnd; constructor|].
  destruct (decide (y ∈ l)) as [Hin|Hin].
  - apply list_elem_of_split in Hin as (b & c & ->). by exists [], y, b, c.
  - destruct IH as (a & x & b & c & ->).
    { intros Hl. apply Hnd. by constructor. }
    by exists (y :: a), x, b, c.
Qed.

Section Shorten.
Variable g : Graph.

Lemma walk_app_cons (l1 l2 : list string) (x : string) :
  walk g (l1 ++ x :: l2) ↔ walk g (l1 ++ [x]) ∧ walk g (x :: l2).
Proof.
  induction l1 as [|y l1 IH]; simpl.
  - split; [intros ?; split; [apply walk_singleton|done] | by intros [_ ?]].
  - rewrite (walk_cons g y (l1 ++ x :: l2)), (walk_cons g y (l1 ++ [x])), IH.
    assert (head (l1 ++ x :: l2) = head (l1 ++ [x])) as ->
      by (by destruct l1).
    tauto.
Qed.

Lemma walk_cut (a b c : list string) (x : string) :
  walk g (a ++ x :: b ++ x :: c) → walk g (a ++ x :: c).
Proof.
  intros [Ha Hb]%walk_app_cons. apply walk_app_cons. split; [done|].
  by apply (walk_suffix g (x :: b) (x :: c)).
Qed.

Lemma path_between_cut (s t : string) (w : list string) :
  path_between g s t w → ¬ NoDup w →
  ∃ w', path_between g s t w' ∧ length w' < length w.
Proof.
  intros (Hhead & Hlast & Hw) (a & x & b & c & ->)%not_NoDup_split.
  exists (a ++ x :: c). split; [repeat split|].
  - by destruct a.
  - rewrite last_app_cons in Hlast. rewrite app_comm_cons in Hlast.
    rewrite last_app_cons in Hlast. by rewrite last_app_cons.
  - by eapply walk_cut.
  - rewrite !length_app. simpl. rewrite length_app. simpl. lia.
Qed.

Lemma path_between_simple (s t : string) (n : nat) (w : list string) :
  length w ≤ n → path_between g s t w →
  ∃ w', simple_path g s t w' ∧ length w' ≤ length w.
Proof.
  revert w. induction n as [|n IH]; intros w Hlen Hw.
  - destruct w; [|simpl in Hlen; lia]. by destruct Hw as [? _].
  - destruct (decide (NoDup w)) as [Hnd|Hnd]; [by exists w|].
    destruct (path_between_cut s t w Hw Hnd) as (w1 & Hw1 & Hlt).
    destruct (IH w1 ltac:(lia) Hw1) as (w' & Hw' & Hle).
    exists w'. split; [done|lia].
Qed.

(** [get_shortest_bfs_path] between distinct vertices returns a shortest
    path, or the empty tuple when there is none. *)
Lemma shortest_bfs_path_correct (start target : string) :
  start ≠ target →
  ∃ p, (∀ fuel, bfs_budget g ≤ fuel →
          get_shortest_bfs_path fuel g start target = Some (Returned p))
       ∧ (p = [] ∨ simple_path g start target p)
       ∧ (∀ w, path_between g start target w →
               p ≠ [] ∧ length p ≤ length w).
Proof.
  intros Hne.
  destruct (get_shortest_bfs_path_terminates g start target) as [r Hrun].
  pose proof (Hrun _ (le_n _)) as Hbudget.
  assert (Forall (frontier_path g start target) [[start]]) as Hsound.
  { apply Forall_singleton. repeat split.
    - apply walk_singleton.
    - apply NoDup_singleton.
    - by intros ->%list_elem_of_singleton. }
  destruct (bfs_while_sound g start target _ _ _ _ Hsound Hbudget)
    as (p & -> & Hp).
  exists p. split; [done|]. split; [done|].
  intros w Hw.
  destruct (path_between_simple start target _ w (le_n _) Hw)
    as (w' & Hw' & Hle).
  enough (p ≠ [] ∧ length p ≤ length w') by (split; [tauto|lia]).
  eapply (bfs_while_shortest g start target w'); [done|done| | |done].
  - apply ordered_singleton.
  - exists 0. destruct Hw' as [(Hhead & Hlast & _) _].
    destruct w' as [|x [|y w']]; simplify_eq/=.
    split; [lia|left].
Qed.

End Shorten.

(** C2.  Between distinct [start] and [target], [get_shortest_bfs_path]
    returns, when some walk along [get_neighbors] edges joins them, a tuple
    that begins at [start], ends at [target], repeats no vertex, steps from
    each element to one of its neighbours, and is no longer than any walk
    from [start] to [target]; when no walk exists it returns the empty
    tuple.  Which shortest path comes back depends on the order in which a
    neighbour set is enumerated: the two enumerations of the neighbours B, C
    of A in the diamond A-B-D, A-C-D give two different answers. *)
Theorem get_shortest_bfs_path_is_shortest
    (adjacency : gmap string (list string)) (start target : string) :
  start ≠ target →
  ∃ p,
    (∀ fuel, bfs_budget (Graph_init adjacency) ≤ fuel →
       get_shortest_bfs_path fuel (Graph_init adjacency) start target
       = Some (Returned p))
    ∧ ((∃ w, path_between (Graph_init adjacency) start target w) →
       head p = Some start ∧ last p = Some target ∧ NoDup p
       ∧ walk (Graph_init adjacency) p
       ∧ ∀ w, path_between (Graph_init adjacency) start target w →
              length p - 1 ≤ length w - 1)
    ∧ ((¬ ∃ w, path_between (Graph_init adjacency) start target w) → p = [])
    ∧ (get_shortest_bfs_path 9 (Graph_init diamond_bc) "A" "D"
         = Some (Returned ["A"; "B"; "D"]%string)
       ∧ get_shortest_bfs_path 9 (Graph_init diamond_cb) "A" "D"
         = Some (Returned ["A"; "C"; "D"]%string)).
Proof.
  intros Hne.
  destruct (shortest_bfs_path_correct (Graph_init adjacency) start target Hne)
    as (p & Hrun & Hp & Hmin).
  exists p. split; [done|]. split; [|split].
  - intros [w Hw]. destruct (Hmin w Hw) as [Hnil _].
    destruct Hp as [->|[(? & ? & ?) ?]]; [done|].
    repeat split; try done. intros w' Hw'.
    destruct (Hmin w' Hw'). lia.
  - intros Hnone. destruct Hp as [->|[Hp _]]; [done|].
    destruct Hnone. eauto.
  - split; vm_compute; reflexivity.
Qed.

Lemma get_shortest_bfs_path_is_shortest_witness :
  ∃ p,
    (∀ fuel, bfs_budget (Graph_init two_cycle_graph) ≤ fuel →
       get_shortest_bfs_path fuel (Graph_init two_cycle_graph) "A" "B"
       = Some (Returned p))
    ∧ ((∃ w, path_between (Graph_init two_cycle_graph) "A" "B" w) →
       head p = Some "A"%string ∧ last p = Some "B"%string ∧ NoDup p
       ∧ walk (Graph_init two_cycle_graph) p
       ∧ ∀ w, path_between (Graph_init two_cycle_graph) "A" "B" w →
              length p - 1 ≤ length w - 1)
    ∧ ((¬ ∃ w, path_between (Graph_init two_cycle_graph) "A" "B" w) → p = [])
    ∧ (get_shortest_bfs_path 9 (Graph_init diamond_bc) "A" "D"
         = Some (Returned ["A"; "B"; "D"]%string)
       ∧ get_shortest_bfs_path 9 (Graph_init diamond_cb) "A" "D"
         = Some (Returned ["A"; "C"; "D"]%string)).
Proof.
  apply (get_shortest_bfs_path_is_shortest two_cycle_graph "A" "B").
  discriminate.
Defined.

Example shortest_path_H_C :
  get_shortest_bfs_path 100 (Graph_init binary_tree_graph) "H" "C"
  = Some (Returned ["H"; "I"; "G"; "F"; "B"; "D"; "C"]%string).
Proof. vm_compute. reflexivity. Qed.

(** ** [get_all_shortest_bfs_paths] *)

Section AllShortest.
Variable g : Graph.
Variables source target : string.

Lemma all_body_below (h : list string) (st : all_state) (n : string) (z : Z) :
  below (min_length st) z → below (min_length (all_body target h st n)) z.
Proof.
  unfold all_body. destruct (decide (n ∉ h)); [|done].
  destruct (decide (n = target)); [|done].
  destruct (int_le _ _) eqn:Hle; [|done]. simpl.
  destruct (min_length st); simpl in *; [|done].
  apply Z.leb_le in Hle. lia.
Qed.

Lemma all_body_hit (h : list string) (st : all_state) :
  target ∉ h →
  below (min_length (all_body target h st target)) (len (h ++ [target])).
Proof.
  intros Ht. unfold all_body. rewrite decide_True by done.
  rewrite decide_True by done.
  destruct (int_le _ _) eqn:Hle; simpl; [lia|].
  destruct (min_length st); simpl in *; [|done].
  apply Z.leb_gt in Hle. lia.
Qed.

Lemma all_body_paths (h : list string) (st : all_state) (n : string)
    (p : list string) :
  p ∈ paths (all_body target h st n) →
  p ∈ paths st ∨ (p = h ++ [target] ∧ n = target ∧ target ∉ h).
Proof.
  unfold all_body. destruct (decide (n ∉ h)); [|auto].
  destruct (decide (n = target)) as [->|]; [|auto].
  destruct (int_le _ _); [|auto]. simpl.
  rewrite elem_of_union, elem_of_singleton. intros [->|?]; auto.
Qed.

Lemma all_for_below (h ns : list string) (st : all_state) (z : Z) :
  below (min_length st) z →
  below (min_length (foldl (all_body target h) st ns)) z.
Proof.
  revert st. induction ns as [|n ns IH]; intros st Hst; simpl; [done|].
  by apply IH, all_body_below.
Qed.

Lemma all_for_hit (h ns : list string) (st : all_state) :
  target ∉ h → target ∈ ns →
  below (min_length (foldl (all_body target h) st ns)) (len (h ++ [target])).
Proof.
  intros Ht. revert st. induction ns as [|n ns IH]; intros st Hin; simpl.
  { by apply elem_of_nil in Hin. }
  apply elem_of_cons in Hin as [<-|Hin]; [|by apply IH].
  by apply all_for_below, all_body_hit.
Qed.

Lemma all_for_paths (h ns : list string) (st : all_state) (p : list string) :
  p ∈ paths (foldl (all_body target h) st ns) →
  p ∈ paths st ∨ (p = h ++ [target] ∧ target ∈ ns ∧ target ∉ h).
Proof.
  revert st. induction ns as [|n ns IH]; intros st; simpl; [auto|].
  intros [[?|(-> & -> & ?)]%all_body_paths|(-> & ? & ?)]%IH; [by left|right..].
  - split; [done|]. split; [left|done].
  - split; [done|]. split; [by right|done].
Qed.

(** The searched paths that reach [target] are simple paths from
    [source], and the running minimum is at most the length of every simple
    path to [target] that the queue still tracks. *)
Lemma all_while_correct (fuel : nat) (st : all_state)
    (r : outcome all_state) :
  Forall (frontier_path g source target) (queue st) →
  ordered (queue st) →
  (∀ p, p ∈ paths st → simple_path g source target p) →
  all_while fuel g target st = Some r →
  ∃ st', r = Returned st'
    ∧ (∀ p, p ∈ paths st' → simple_path g source target p)
    ∧ ∀ w, simple_path g source target w →
           below (min_length st) (len w) ∨ tracks w (queue st) →
           below (min_length st') (len w).
Proof.
  revert st. induction fuel as [|fuel IH]; intros st Hq Hord Hpaths; [done|].
  simpl. destruct (queue st) as [|h q] eqn:Hqueue.
  { intros [= <-]. exists st. split; [done|]. split; [done|].
    intros w _ [?|(? & _ & []%elem_of_nil)]. done. }
  apply Forall_cons in Hq as [Hh Hq].
  pose proof Hh as (Hhead & Hwalk & Hnd & Ht).
  destruct (last h) as [u|] eqn:Hlast.
  2:{ apply last_None in Hlast as ->. done. }
  set (st0 := mkAll (paths st) q (min_length st)).
  set (st1 := foldl (all_body target h) st0 (get_neighbors g u)).
  intros Hrun.
  assert (queue st1 = q ++ expand g target h u) as Hq1
    by apply all_for_queue.
  destruct (IH st1) as (st' & -> & Hpaths' & Hmin'); [..|done|].
  - rewrite Hq1. apply Forall_app. split; [done|]. by apply frontier_expand.
  - rewrite Hq1. by apply ordered_step.
  - intros p [?|(-> & Hin & _)]%all_for_paths; [by apply Hpaths|].
    repeat split.
    + destruct h; simplify_eq/=. done.
    + apply last_snoc.
    + apply walk_snoc. split; [done|]. intros ??. by simplify_eq.
    + apply NoDup_app. split; [done|]. split; [|apply NoDup_singleton].
      intros x ? ->%list_elem_of_singleton. done.
  - exists st'. split; [done|]. split; [done|].
    intros w Hw Hcase. apply Hmin'; [done|].
    destruct Hcase as [Hbelow|Htr]; [left; by apply all_for_below|].
    rewrite Hq1.
    destruct (tracks_step g source target w h u q Hw Hlast Htr)
      as [?|[Hlen Hin]]; [by right|left].
    replace (len w) with (len (h ++ [target]));
      [by apply all_for_hit|].
    unfold len. rewrite length_app, Hlen. simpl. lia.
Qed.

End AllShortest.

(** From a vertex to itself nothing is ever recorded: every queued path
    holds the target already. *)
Lemma all_while_same_vertex (g : Graph) (target : string) (fuel : nat)
    (st : all_state) (r : outcome all_state) :
  Forall (λ p, target ∈ p) (queue st) → paths st = ∅ →
  all_while fuel g target st = Some r →
  ∃ st', r = Returned st' ∧ paths st' = ∅.
Proof.
  revert st. induction fuel as [|fuel IH]; intros st Hq Hpaths; [done|].
  simpl. destruct (queue st) as [|h q] eqn:Hqueue; [intros [= <-]; eauto|].
  apply Forall_cons in Hq as [Hh Hq].
  destruct (last h) as [u|] eqn:Hlast.
  2:{ apply last_None in Hlast as ->. by apply elem_of_nil in Hh. }
  apply IH.
  - rewrite all_for_queue. simpl. apply Forall_app. split; [done|].
    apply Forall_forall. intros p (n & -> & _)%list_elem_of_fmap.
    apply elem_of_app. by left.
  - apply set_eq. intros p. split; [|by intros ?%not_elem_of_empty].
    intros [Hp|(_ & _ & ?)]%all_for_paths; [|done].
    simpl in Hp. by rewrite Hpaths in Hp.
Qed.

Lemma tracks_start (g : Graph) (start target : string) (w : list string) :
  start ≠ target → simple_path g start target w → tracks w [[start]].
Proof.
  intros Hne [(Hhead & Hlast & _) _]. exists 0.
  destruct w as [|x [|y w]]; simplify_eq/=. split; [lia|left].
Qed.

Lemma frontier_start (g : Graph) (start target : string) :
  start ≠ target → Forall (frontier_path g start target) [[start]].
Proof.
  intros Hne. apply Forall_singleton. repeat split.
  - apply walk_singleton.
  - apply NoDup_singleton.
  - by intros ->%list_elem_of_singleton.
Qed.

(** C4.  All elements of [get_all_shortest_bfs_paths(a, b)] have the same
    number of vertices, and that number less one is
    [get_shortest_bfs_path_length(a, b)]. *)
Theorem all_shortest_paths_have_shortest_length
    (adjacency : gmap string (list string)) (a b : string) :
  ∃ ps,
    (∀ fuel, bfs_budget (Graph_init adjacency) ≤ fuel →
       get_all_shortest_bfs_paths fuel (Graph_init adjacency) a b
       = Some (Returned ps))
    ∧ (∀ p p', p ∈ ps → p' ∈ ps → length p = length p')
    ∧ (∀ p, p ∈ ps → ∀ fuel, bfs_budget (Graph_init adjacency) ≤ fuel →
         get_shortest_bfs_path_length fuel (Graph_init adjacency) a b
         = Some (Returned (len p - 1)%Z)).
Proof.
  generalize (Graph_init adjacency). intros g.
  destruct (get_all_shortest_bfs_paths_terminates g a b) as [r Hrun].
  pose proof (Hrun _ (le_n _)) as Hbudget.
  unfold get_all_shortest_bfs_paths in Hbudget.
  destruct (all_while _ _ _ _) as [r0|] eqn:Hwhile; [|done].
  destruct (decide (a = b)) as [->|Hne].
  - assert (∃ st', r0 = Returned st' ∧ paths st' = ∅)
      as (st' & -> & Hempty).
    { eapply all_while_same_vertex; [| |exact Hwhile]; simpl; [|done].
      apply Forall_singleton. left. }
    rewrite Hempty in Hbudget. injection Hbudget as <-.
    exists (filter (λ path, Int (len path) = min_length st') ∅).
    split; [done|].
    split; [intros p p' [_ ?%not_elem_of_empty]%elem_of_filter
           |intros p [_ ?%not_elem_of_empty]%elem_of_filter]; done.
  - destruct (all_while_correct g a b _ (mkAll ∅ [[a]] Inf) _
                (frontier_start g a b Hne) (ordered_singleton _)
                (λ p (H : p ∈ (∅ : gset (list string))),
                   False_ind _ (not_elem_of_empty p H))
                Hwhile)
      as (st' & -> & Hpaths & Hmin).
    simpl in Hmin. injection Hbudget as <-.
    exists (filter (λ path, Int (len path) = min_length st') (paths st')).
    split; [done|]. split.
    + intros p p' [Hp _]%elem_of_filter [Hp' _]%elem_of_filter.
      rewrite <- Hp' in Hp. injection Hp. unfold len. lia.
    + intros p [Hlen Hp]%elem_of_filter fuel Hfuel.
      destruct (shortest_bfs_path_correct g a b Hne)
        as (sp & Hsp & Hsimple & Hshort).
      unfold get_shortest_bfs_path_length. rewrite (Hsp fuel Hfuel).
      destruct (Hshort p (proj1 (Hpaths p Hp))) as [Hnil Hle].
      destruct Hsimple as [->|Hsimple]; [done|].
      specialize (Hmin sp Hsimple (or_intror (tracks_start g a b sp Hne Hsimple))).
      rewrite <- Hlen in Hmin. simpl in Hmin.
      destruct sp as [|x sp]; [done|].
      do 3 f_equal. unfold len in *. lia.
Qed.

Example all_shortest_paths_diamond :
  get_all_shortest_bfs_paths 9 (Graph_init diamond_bc) "A" "D"
  = Some (Returned {[ ["A"; "B"; "D"]; ["A"; "C"; "D"] ]}%string)
  ∧ get_shortest_bfs_path_length 9 (Graph_init diamond_bc) "A" "D"
    = Some (Returned 2%Z).
Proof. split; vm_compute; reflexivity. Qed.

(** ** Only simple paths are built *)

Lemma NoDup_snoc_fresh (h : list string) (n : string) :
  NoDup h → n ∉ h → NoDup (h ++ [n]).
Proof.
  intros Hnd Hn. apply NoDup_app. split; [done|].
  split; [|apply NoDup_singleton].
  intros x ? ->%list_elem_of_singleton. done.
Qed.

Lemma bfs_for_NoDup (target : string) (h ns : list string)
    (q : list (list string)) (np : option (list string)) :
  NoDup h → Forall NoDup q → (∀ p, np = Some p → NoDup p) →
  match bfs_for target h ns q np with
  | Next (q', np') => Forall NoDup q' ∧ ∀ p, np' = Some p → NoDup p
  | Return p => NoDup p
  | Raise _ => True
  end.
Proof.
  intros Hh. revert q np.
  induction ns as [|n ns IH]; intros q np Hq Hnp; simpl; [done|].
  destruct (decide (n ∉ h)) as [Hn|Hn].
  - pose proof (NoDup_snoc_fresh h n Hh Hn) as Hnew.
    destruct (decide (n = target)); [done|].
    apply IH; [|by intros ? [= <-]].
    apply Forall_app. split; [done|]. by apply Forall_singleton.
  - destruct (decide (n = target)); [|by apply IH].
    destruct np; [by apply Hnp|done].
Qed.

Lemma bfs_while_NoDup (g : Graph) (target : string) (fuel : nat)
    (q : list (list string)) (np : option (list string)) (p : list string) :
  Forall NoDup q → (∀ p, np = Some p → NoDup p) →
  bfs_while fuel g target q np = Some (Returned p) → NoDup p.
Proof.
  revert q np. induction fuel as [|fuel IH]; intros q np Hq Hnp; [done|].
  simpl. destruct q as [|h q]; [intros [= <-]; constructor|].
  apply Forall_cons in Hq as [Hh Hq].
  destruct (last h) as [u|]; [|done].
  pose proof (bfs_for_NoDup target h (get_neighbors g u) q np Hh Hq Hnp)
    as Hfor.
  destruct (bfs_for _ _ _ _ _) as [[q' np']|p'|]; [| |done].
  - destruct Hfor. by apply IH.
  - by intros [= <-].
Qed.

Lemma all_while_NoDup (g : Graph) (target : string) (fuel : nat)
    (st st' : all_state) :
  Forall NoDup (queue st) → (∀ p, p ∈ paths st → NoDup p) →
  all_while fuel g target st = Some (Returned st') →
  ∀ p, p ∈ paths st' → NoDup p.
Proof.
  revert st. induction fuel as [|fuel IH]; intros st Hq Hpaths; [done|].
  simpl. destruct (queue st) as [|h q] eqn:Hqueue; [by intros [= <-]|].
  apply Forall_cons in Hq as [Hh Hq].
  destruct (last h) as [u|]; [|done].
  apply IH.
  - rewrite all_for_queue. simpl. apply Forall_app. split; [done|].
    apply Forall_forall. intros p (n & -> & Hn)%list_elem_of_fmap.
    apply list_elem_of_filter in Hn as [[Hn _] _].
    by apply NoDup_snoc_fresh.
  - intros p [Hp|(-> & _ & Ht)]%all_for_paths; [by apply Hpaths|].
    by apply NoDup_snoc_fresh.
Qed.

Lemma all_while_no_exception (g : Graph) (target : string) (fuel : nat)
    (st : all_state) (e : exn) :
  Forall (λ p, p ≠ []) (queue st) →
  all_while fuel g target st ≠ Some (Raised e).
Proof.
  revert st. induction fuel as [|fuel IH]; intros st Hne; [done|]. simpl.
  destruct (queue st) as [|h q] eqn:Hqueue; [done|].
  apply Forall_cons in Hne as [Hh Hq].
  destruct (last h) as [u|] eqn:Hlast; [|by apply last_None in Hlast].
  apply IH. rewrite all_for_queue. simpl.
  apply Forall_app. split; [done|].
  apply Forall_forall. intros p (n & -> & _)%list_elem_of_fmap.
  by destruct h.
Qed.

Lemma get_all_ladders_NoDup (g : Graph) (start target : string)
    (max_rungs : number) (fuel : nat) (ladders : gset (list string)) :
  get_all_ladders fuel g start target max_rungs = Some ladders →
  ∀ p, p ∈ ladders → NoDup p.
Proof.
  unfold get_all_ladders. case_decide.
  { by intros [= <-] p ?%not_elem_of_empty. }
  intros Hfind p Hp.
  apply (find_ladders_spec _ _ _ _ _ _ _ _ Hfind) in Hp
    as [?%not_elem_of_empty|Hp]; [done|].
  apply ladder_from_sound in Hp as [_ (_ & Hnd & _)];
    [done|apply walk_singleton|apply NoDup_singleton|done].
Qed.

(** C10.  Each traversal returns on every graph once its fuel reaches a
    bound computed from the graph, and returns the same result for every
    larger fuel: [get_shortest_bfs_path], [get_all_shortest_bfs_paths] and
    [get_all_ladders], the last one also when [max_rungs] is the unbounded
    default.  A path is only ever extended by a vertex that is not on it, so
    every path that comes back repeats no vertex. *)
Theorem traversal_queries_terminate
    (adjacency : gmap string (list string)) (start target : string)
    (max_rungs : number) :
  (∃ r, (∀ fuel, bfs_budget (Graph_init adjacency) ≤ fuel →
           get_shortest_bfs_path fuel (Graph_init adjacency) start target
           = Some r)
        ∧ ∀ p, r = Returned p → NoDup p)
  ∧ (∃ ps, (∀ fuel, bfs_budget (Graph_init adjacency) ≤ fuel →
              get_all_shortest_bfs_paths fuel (Graph_init adjacency)
                                         start target
              = Some (Returned ps))
           ∧ ∀ p, p ∈ ps → NoDup p)
  ∧ (∃ ladders, (∀ fuel, depth_budget (Graph_init adjacency) ≤ fuel →
                   get_all_ladders fuel (Graph_init adjacency) start target
                                   max_rungs
                   = Some ladders)
                ∧ ∀ p, p ∈ ladders → NoDup p)
  ∧ (∃ ladders, (∀ fuel, depth_budget (Graph_init adjacency) ≤ fuel →
                   get_all_ladders fuel (Graph_init adjacency) start target
                                   Inf
                   = Some ladders)
                ∧ ∀ p, p ∈ ladders → NoDup p).
Proof.
  generalize (Graph_init adjacency). intros g.
  assert (Forall NoDup [[start]]) as Hstart
    by apply Forall_singleton, NoDup_singleton.
  split; [|split; [|split]].
  - destruct (get_shortest_bfs_path_terminates g start target) as [r Hrun].
    exists r. split; [done|]. intros p ->.
    by eapply bfs_while_NoDup, (Hrun _ (le_n _)).
  - destruct (get_all_shortest_bfs_paths_terminates g start target)
      as [r Hrun].
    pose proof (Hrun _ (le_n _)) as Hbudget.
    unfold get_all_shortest_bfs_paths in Hbudget.
    destruct (all_while _ _ _ _) as [[st'|e]|] eqn:Hwhile; [| |done].
    + injection Hbudget as <-. eexists. split; [done|].
      intros p [_ Hp]%elem_of_filter.
      eapply all_while_NoDup, Hp; [| |exact Hwhile]; [done|].
      by intros ? ?%not_elem_of_empty.
    + exfalso. eapply all_while_no_exception, Hwhile.
      by apply Forall_singleton.
  - destruct (get_all_ladders_terminates g start target max_rungs)
      as [r Hrun].
    exists r. split; [done|].
    by eapply get_all_ladders_NoDup, (Hrun _ (le_n _)).
  - destruct (get_all_ladders_terminates g start target Inf) as [r Hrun].
    exists r. split; [done|].
    by eapply get_all_ladders_NoDup, (Hrun _ (le_n _)).
Qed.

(** * Further properties of the code *)

(** ** [hamming_distance] *)

Lemma hamming_fold_shift (d : nat) (l : list (ascii * ascii)) :
  foldl (λ distance '(char1, char2),
           if decide (char1 ≠ char2) then distance + 1 else distance) d l
  = d + foldl (λ distance '(char1, char2),
                 if decide (char1 ≠ char2) then distance + 1 else distance)
              0 l.
Proof.
  revert d. induction l as [|[c1 c2] l IH]; intros d; simpl; [lia|].
  rewrite IH, (IH (if decide (c1 ≠ c2) then _ else _)).
  destruct (decide (c1 ≠ c2)); lia.
Qed.

Lemma hamming_distance_nil_l (w : string) : hamming_distance "" w = 0.
Proof. reflexivity. Qed.

Lemma hamming_distance_nil_r (w : string) : hamming_distance w "" = 0.
Proof. by destruct w. Qed.

Lemma hamming_distance_cons (c1 c2 : ascii) (r1 r2 : string) :
  hamming_distance (String c1 r1) (String c2 r2)
  = (if decide (c1 ≠ c2) then 1 else 0) + hamming_distance r1 r2.
Proof.
  unfold hamming_distance. simpl. rewrite hamming_fold_shift.
  destruct (decide (c1 ≠ c2)); lia.
Qed.

Lemma hamming_distance_comm (w1 w2 : string) :
  hamming_distance w1 w2 = hamming_distance w2 w1.
Proof.
  revert w2. induction w1 as [|c1 r1 IH]; intros [|c2 r2].
  - done.
  - by rewrite hamming_distance_nil_l, hamming_distance_nil_r.
  - by rewrite hamming_distance_nil_l, hamming_distance_nil_r.
  - rewrite !hamming_distance_cons, IH.
    destruct (decide (c1 = c2)) as [->|];
      [rewrite !decide_False by tauto|rewrite !decide_True by congruence];
      done.
Qed.

Lemma hamming_distance_refl (w : string) : hamming_distance w w = 0.
Proof.
  induction w as [|c r IH]; [done|].
  rewrite hamming_distance_cons, IH. by rewrite decide_False by tauto.
Qed.

Lemma string_app_cons (c : ascii) (w s : string) :
  String.append (String c w) s = String c (String.append w s).
Proof. reflexivity. Qed.

Lemma string_app_nil_r (w : string) : String.append w "" = w.
Proof.
  induction w as [|c w IH]; [done|]. by rewrite string_app_cons, IH.
Qed.

Lemma string_app_length (w s : string) :
  String.length (String.append w s) = String.length w + String.length s.
Proof.
  induction w as [|c w IH]; [done|]. rewrite string_app_cons. simpl.
  by rewrite IH.
Qed.

(** X1.  [hamming_distance] does not depend on the order of its two
    arguments. *)
Theorem hamming_distance_symmetric (w1 w2 : string) :
  hamming_distance w1 w2 = hamming_distance w2 w1.
Proof. apply hamming_distance_comm. Qed.

(** X2.  The distance is 0 exactly when one word is the other followed by
    some more characters: [zip] never looks at them.  Two words of the same
    length are at distance 0 only when they are equal. *)
Theorem hamming_distance_zero_iff_prefix (w1 w2 : string) :
  (hamming_distance w1 w2 = 0
   ↔ ∃ s, w2 = String.append w1 s ∨ w1 = String.append w2 s)
  ∧ (String.length w1 = String.length w2 →
     hamming_distance w1 w2 = 0 → w1 = w2).
Proof.
  assert (hamming_distance w1 w2 = 0
          ↔ ∃ s, w2 = String.append w1 s ∨ w1 = String.append w2 s) as Hiff.
  { revert w2. induction w1 as [|c1 r1 IH]; intros [|c2 r2].
    - split; [by exists ""%string; left|done].
    - split; [by exists (String c2 r2); left|done].
    - rewrite hamming_distance_nil_r.
      split; [by exists (String c1 r1); right|done].
    - rewrite hamming_distance_cons. split.
      + destruct (decide (c1 ≠ c2)) as [|Heq]; [lia|].
        apply dec_stable in Heq as ->. simpl.
        intros (s & [->| ->])%IH; exists s; [by left|by right].
      + intros (s & [[= -> ->]|[= -> ->]]); rewrite decide_False by tauto;
          simpl; apply IH; exists s; [by left|by right]. }
  split; [done|].
  intros Hlen (s & [->| ->])%Hiff; rewrite string_app_length in Hlen;
    destruct s; simpl in Hlen; try lia; by rewrite string_app_nil_r.
Qed.

(** X3.  The distance never exceeds the length of the shorter word. *)
Theorem hamming_distance_le_shorter (w1 w2 : string) :
  hamming_distance w1 w2 ≤ String.length w1 `min` String.length w2.
Proof.
  revert w2. induction w1 as [|c1 r1 IH]; intros [|c2 r2].
  - done.
  - done.
  - rewrite hamming_distance_nil_r. lia.
  - rewrite hamming_distance_cons. specialize (IH r2). simpl.
    destruct (decide (c1 ≠ c2)); lia.
Qed.

(** ** The constructed [Graph] *)

Lemma get_neighbors_init (adjacency : gmap string (list string))
    (u : string) :
  get_neighbors (Graph_init adjacency) u = default [] (adjacency !! u).
Proof.
  unfold get_neighbors. simpl. case_decide as Hu; [|done].
  apply not_elem_of_dom in Hu. by rewrite Hu.
Qed.

Lemma elem_of_get_neighbors_init (adjacency : gmap string (list string))
    (u v : string) :
  v ∈ get_neighbors (Graph_init adjacency) u
  ↔ ∃ neighbors, adjacency !! u = Some neighbors ∧ v ∈ neighbors.
Proof.
  rewrite get_neighbors_init. destruct (adjacency !! u) as [ns|]; simpl.
  - split; [eauto|]. by intros (? & [= <-] & ?).
  - split; [by intros ?%elem_of_nil|]. by intros (? & ? & _).
Qed.

Lemma sorted_pair_cases (u v : string) :
  sorted_pair u v = (u, v) ∨ sorted_pair u v = (v, u).
Proof. unfold sorted_pair. destruct (String.ltb v u); auto. Qed.

(** X4.  [edges] is the symmetric closure of the neighbour relation: two
    vertices are joined by an edge, in one order or the other, exactly when
    one of them lists the other as a neighbour.  In particular [(v, v)] is an
    edge exactly when [v] is its own neighbour. *)
Theorem edges_symmetric_closure
    (adjacency : gmap string (list string)) (u v : string) :
  (u, v) ∈ edges (Graph_init adjacency) ∨ (v, u) ∈ edges (Graph_init adjacency)
  ↔ v ∈ get_neighbors (Graph_init adjacency) u
    ∨ u ∈ get_neighbors (Graph_init adjacency) v.
Proof.
  rewrite !elem_of_edges, !elem_of_get_neighbors_init. split.
  - intros [(x & ns & n & Hx & Hn & He)|(x & ns & n & Hx & Hn & He)];
      destruct (sorted_pair_cases x n) as [Hs|Hs]; rewrite Hs in He;
      simplify_eq; eauto.
  - intros [(ns & Hu & Hv)|(ns & Hv & Hu)].
    + destruct (sorted_pair_cases u v) as [Hs|Hs];
        [left|right]; exists u, ns, v; by rewrite Hs.
    + destruct (sorted_pair_cases v u) as [Hs|Hs];
        [right|left]; exists v, ns, u; by rewrite Hs.
Qed.

Lemma walk_is_valid_path (adjacency : gmap string (list string))
    (p : list string) :
  walk (Graph_init adjacency) p → is_valid_path (Graph_init adjacency) p = true.
Proof.
  intros Hw. apply is_valid_path_iff. intros i v Hi Hv. simpl.
  destruct (lookup_lt_is_Some_2 p (S i)) as [w Hw']; [lia|].
  apply (Hw i v w Hv), elem_of_get_neighbors_init in Hw' as (ns & -> & _).
  eauto.
Qed.

(** X5.  [is_valid_path] accepts every sequence of vertices in which each
    element is a neighbour of the one before it. *)
Theorem is_valid_path_accepts_walks
    (adjacency : gmap string (list string)) (p : list string) :
  walk (Graph_init adjacency) p → is_valid_path (Graph_init adjacency) p = true.
Proof. apply walk_is_valid_path. Qed.

Lemma is_valid_path_accepts_walks_witness :
  is_valid_path (Graph_init two_cycle_graph) ["A"; "B"; "A"]%string = true.
Proof.
  apply (is_valid_path_accepts_walks two_cycle_graph).
  intros [|[|[|i]]] u v Hu Hv; simplify_eq/=;
    vm_compute; apply list_elem_of_here.
Defined.

(** ** What the searches keep true of their paths *)

(** A property of paths that holds of the start path and is kept by every
    extension with a fresh neighbour holds of whatever
    [get_shortest_bfs_path] returns, stale [new_path] included. *)
Lemma bfs_for_invariant (P : list string → Prop) (target : string)
    (h ns : list string) (q : list (list string))
    (np : option (list string)) :
  (∀ n, n ∈ ns → n ∉ h → P (h ++ [n])) →
  Forall P q → (∀ p, np = Some p → P p) →
  match bfs_for target h ns q np with
  | Next (q', np') => Forall P q' ∧ ∀ p, np' = Some p → P p
  | Return p => P p
  | Raise _ => True
  end.
Proof.
  revert q np.
  induction ns as [|n ns IH]; intros q np Hext Hq Hnp; simpl; [done|].
  assert (∀ n', n' ∈ ns → n' ∉ h → P (h ++ [n'])) as Hext'
    by (intros ???; apply Hext; [by right|done]).
  destruct (decide (n ∉ h)) as [Hn|Hn].
  - pose proof (Hext n (list_elem_of_here _ _) Hn) as Hnew.
    destruct (decide (n = target)); [done|].
    apply IH; [done| |by intros ? [= <-]].
    apply Forall_app. split; [done|]. by apply Forall_singleton.
  - destruct (decide (n = target)); [|by apply IH].
    destruct np; [by apply Hnp|done].
Qed.

Lemma bfs_while_invariant (P : list string → Prop) (g : Graph)
    (target : string) (fuel : nat) (q : list (list string))
    (np : option (list string)) (p : list string) :
  (∀ h u n, P h → last h = Some u → n ∈ get_neighbors g u → n ∉ h →
            P (h ++ [n])) →
  P [] → Forall P q → (∀ p, np = Some p → P p) →
  bfs_while fuel g target q np = Some (Returned p) → P p.
Proof.
  intros Hext Hnil. revert q np.
  induction fuel as [|fuel IH]; intros q np Hq Hnp; [done|].
  simpl. destruct q as [|h q]; [by intros [= <-]|].
  apply Forall_cons in Hq as [Hh Hq].
  destruct (last h) as [u|] eqn:Hlast; [|done].
  pose proof (bfs_for_invariant P target h (get_neighbors g u) q np
                (λ n Hn Hf, Hext h u n Hh Hlast Hn Hf) Hq Hnp) as Hfor.
  destruct (bfs_for _ _ _ _ _) as [[q' np']|p'|]; [| |done].
  - destruct Hfor. by apply IH.
  - by intros [= <-].
Qed.

Lemma all_while_invariant (P : list string → Prop) (g : Graph)
    (target : string) (fuel : nat) (st st' : all_state) :
  (∀ h u n, P h → last h = Some u → n ∈ get_neighbors g u → n ∉ h →
            P (h ++ [n])) →
  Forall P (queue st) → (∀ p, p ∈ paths st → P p) →
  all_while fuel g target st = Some (Returned st') →
  ∀ p, p ∈ paths st' → P p.
Proof.
  intros Hext. revert st.
  induction fuel as [|fuel IH]; intros st Hq Hpaths; [done|].
  simpl. destruct (queue st) as [|h q] eqn:Hqueue; [by intros [= <-]|].
  apply Forall_cons in Hq as [Hh Hq].
  destruct (last h) as [u|] eqn:Hlast; [|done].
  assert (∀ ns st0 p,
            (∀ n, n ∈ ns → n ∈ get_neighbors g u) →
            Forall P (queue st0) → (∀ p, p ∈ paths st0 → P p) →
            Forall P (queue (foldl (all_body target h) st0 ns))
            ∧ (p ∈ paths (foldl (all_body target h) st0 ns) → P p)) as Hfold.
  { induction ns as [|n ns IHns]; intros st0 p Hns Hq0 Hp0; simpl; [auto|].
    apply IHns; [intros ??; apply Hns; by right|..];
      unfold all_body;
      (destruct (decide (n ∉ h)) as [Hn|]; [|done]);
      pose proof (Hext h u n Hh Hlast (Hns n (list_elem_of_here _ _)) Hn);
      (destruct (decide (n = target)); [destruct (int_le _ _)|]); simpl;
      try done;
      first [ apply Forall_app; split; [done|]; by apply Forall_singleton
            | intros p' [->%elem_of_singleton|?]%elem_of_union; auto ]. }
  apply IH.
  - by apply (Hfold _ _ []).
  - intros p. by apply Hfold.
Qed.

Lemma walk_extend (g : Graph) (h : list string) (u n : string) :
  walk g h → last h = Some u → n ∈ get_neighbors g u → walk g (h ++ [n]).
Proof.
  intros Hw Hlast Hn. apply walk_snoc. split; [done|].
  intros ??. by simplify_eq.
Qed.

(** X6.  Whatever the two breadth-first searches return passes
    [is_valid_path]: the tuple of [get_shortest_bfs_path], also the stale
    one it returns when [start] equals [target], and every element of
    [get_all_shortest_bfs_paths]. *)
Theorem bfs_results_are_valid_paths
    (adjacency : gmap string (list string)) (start target : string) :
  (∃ r, (∀ fuel, bfs_budget (Graph_init adjacency) ≤ fuel →
           get_shortest_bfs_path fuel (Graph_init adjacency) start target
           = Some r)
        ∧ ∀ p, r = Returned p →
               is_valid_path (Graph_init adjacency) p = true)
  ∧ (∃ ps, (∀ fuel, bfs_budget (Graph_init adjacency) ≤ fuel →
              get_all_shortest_bfs_paths fuel (Graph_init adjacency)
                                         start target
              = Some (Returned ps))
           ∧ ∀ p, p ∈ ps → is_valid_path (Graph_init adjacency) p = true).
Proof.
  assert (∀ h u n, walk (Graph_init adjacency) h → last h = Some u →
                   n ∈ get_neighbors (Graph_init adjacency) u → n ∉ h →
                   walk (Graph_init adjacency) (h ++ [n])) as Hext
    by (intros; by eapply walk_extend).
  assert (Forall (walk (Graph_init adjacency)) [[start]]) as Hstart
    by apply Forall_singleton, walk_singleton.
  split.
  - destruct (get_shortest_bfs_path_terminates (Graph_init adjacency)
                start target) as [r Hrun].
    exists r. split; [done|]. intros p ->. apply walk_is_valid_path.
    refine (bfs_while_invariant _ _ _ _ _ _ _ Hext (walk_nil _) Hstart _
                                (Hrun _ (le_n _))).
    by intros.
  - destruct (get_all_shortest_bfs_paths_terminates (Graph_init adjacency)
                start target) as [r Hrun].
    pose proof (Hrun _ (le_n _)) as Hbudget.
    unfold get_all_shortest_bfs_paths in Hbudget.
    destruct (all_while _ _ _ _) as [[st'|e]|] eqn:Hwhile; [| |done].
    + injection Hbudget as <-. eexists. split; [done|].
      intros p [_ Hp]%elem_of_filter. apply walk_is_valid_path.
      refine (all_while_invariant _ _ _ _ (mkAll ∅ [[start]] Inf) _
                                  Hext Hstart _ Hwhile p Hp).
      by intros ? ?%not_elem_of_empty.
    + exfalso. eapply all_while_no_exception, Hwhile.
      by apply Forall_singleton.
Qed.

(** ** When [get_shortest_bfs_path] raises *)

(** [new_path] is unbound only until the first assignment; the [for] loop
    raises only while it is unbound, at a neighbour that is the target and
    lies on the dequeued path. *)
Lemma bfs_for_unbound (target : string) (h ns : list string)
    (q : list (list string)) (np : option (list string)) :
  match bfs_for target h ns q np with
  | Next (q', np') => np' = None → np = None ∧ q' = q
  | Return _ => True
  | Raise e => np = None ∧ e = UnboundLocalError ∧ target ∈ h ∧ target ∈ ns
  end.
Proof.
  revert q np. induction ns as [|n ns IH]; intros q np; simpl; [done|].
  destruct (decide (n ∉ h)) as [Hn|Hn].
  - destruct (decide (n = target)); [done|].
    specialize (IH (q ++ [h ++ [n]]) (Some (h ++ [n]))).
    destruct (bfs_for _ _ _ _ _) as [[q' np']| |]; [|done|].
    + intros Hnone. by destruct (IH Hnone).
    + by destruct IH.
  - apply dec_stable in Hn.
    destruct (decide (n = target)) as [->|].
    { destruct np; [done|]. repeat split; [done|left]. }
    specialize (IH q np).
    destruct (bfs_for _ _ _ _ _) as [[q' np']| |]; [done..|].
    destruct IH as (? & ? & ? & ?). repeat split; [done..|by right].
Qed.

Lemma bfs_while_raises (g : Graph) (start target : string) (fuel : nat)
    (q : list (list string)) (np : option (list string)) (e : exn) :
  Forall (λ p, p ≠ []) q →
  (np = None → q = [[start]] ∨ q = []) →
  bfs_while fuel g target q np = Some (Raised e) →
  e = UnboundLocalError ∧ start = target ∧ start ∈ get_neighbors g start.
Proof.
  revert q np. induction fuel as [|fuel IH]; intros q np Hne Hnp; [done|].
  simpl. destruct q as [|h q]; [done|].
  apply Forall_cons in Hne as [Hh Hq].
  destruct (last h) as [u|] eqn:Hlast; [|by apply last_None in Hlast].
  pose proof (bfs_for_unbound target h (get_neighbors g u) q np) as Hfor.
  destruct (bfs_for _ _ _ _ _) as [[q' np']|p|e'] eqn:Heq; [|done|].
  - apply IH.
    + apply bfs_for_Next in Heq as [-> _]. apply Forall_app. split; [done|].
      apply Forall_forall. intros p (n & -> & _)%list_elem_of_fmap.
      by destruct h.
    + intros [Hnone ->]%Hfor.
      destruct (Hnp Hnone) as [[= -> ->]|?]; [by right|done].
  - destruct Hfor as (Hnone & -> & Hin & Hnb). intros [= <-].
    destruct (Hnp Hnone) as [[= -> ->]|?]; [|done].
    apply list_elem_of_singleton in Hin as ->.
    injection Hlast as <-. done.
Qed.

(** X7.  [get_shortest_bfs_path] can raise only [UnboundLocalError], and
    only when it is asked for a path from a vertex to itself and that
    vertex is its own neighbour. *)
Theorem get_shortest_bfs_path_raises_only_on_self_loop
    (adjacency : gmap string (list string)) (start target : string)
    (fuel : nat) (e : exn) :
  get_shortest_bfs_path fuel (Graph_init adjacency) start target
  = Some (Raised e) →
  e = UnboundLocalError ∧ start = target
  ∧ start ∈ get_neighbors (Graph_init adjacency) start.
Proof.
  apply bfs_while_raises; [by apply Forall_singleton|auto].
Qed.

Lemma get_shortest_bfs_path_raises_only_on_self_loop_witness :
  UnboundLocalError = UnboundLocalError ∧ "A"%string = "A"%string
  ∧ "A"%string ∈ get_neighbors (Graph_init self_loop_graph) "A".
Proof.
  apply (get_shortest_bfs_path_raises_only_on_self_loop
           self_loop_graph "A" "A" 1 UnboundLocalError).
  vm_compute. reflexivity.
Defined.

(** X8.  On a graph constructed by [LadderGraph] no word is its own
    neighbour, so [get_shortest_ladder] never raises: it returns a tuple for
    every pair of words. *)
Theorem get_shortest_ladder_never_raises (g : Graph)
    (word_list : list string) (start target : string) :
  ladder_graph g word_list →
  ∃ p, ∀ fuel, bfs_budget g ≤ fuel →
               get_shortest_ladder fuel g start target = Some (Returned p).
Proof.
  intros Hg. unfold get_shortest_ladder. case_decide; [by eexists|].
  destruct (get_shortest_bfs_path_terminates g (lower start) (lower target))
    as [[p|e] Hrun]; [by exists p|].
  exfalso.
  destruct (bfs_while_raises g (lower start) (lower target) (bfs_budget g)
              [[lower start]] None e) as (_ & _ & Hself);
    [by apply Forall_singleton|auto|apply (Hrun _ (le_n _))|].
  apply (ladder_graph_neighbors g word_list Hg) in Hself. tauto.
Qed.

Lemma get_shortest_ladder_never_raises_witness :
  ∃ p, ∀ fuel, bfs_budget (LadderGraph_init three_words) ≤ fuel →
               get_shortest_ladder fuel (LadderGraph_init three_words)
                                   "ab" "ab"
               = Some (Returned p).
Proof.
  apply (get_shortest_ladder_never_raises
           (LadderGraph_init three_words) three_words "ab" "ab").
  exists (build_adj_list three_words).
  split; [reflexivity|]. intros v. reflexivity.
Defined.

(** X9.  From a vertex without neighbours, and so from every string that
    is not a key of the adjacency map, the three path queries give their
    empty answers, whatever the target is: the empty tuple, length 0 and
    the empty set. *)
Theorem queries_from_vertex_without_neighbors (g : Graph)
    (start target : string) (fuel : nat) :
  get_neighbors g start = [] →
  get_shortest_bfs_path (S (S fuel)) g start target = Some (Returned [])
  ∧ get_shortest_bfs_path_length (S (S fuel)) g start target
    = Some (Returned 0%Z)
  ∧ get_all_shortest_bfs_paths (S (S fuel)) g start target
    = Some (Returned ∅).
Proof.
  intros Hnone.
  assert (get_shortest_bfs_path (S (S fuel)) g start target
          = Some (Returned [])) as Hpath.
  { unfold get_shortest_bfs_path. simpl. by rewrite Hnone. }
  split; [done|]. split.
  - unfold get_shortest_bfs_path_length. by rewrite Hpath.
  - unfold get_all_shortest_bfs_paths. simpl. rewrite Hnone. simpl.
    replace (filter (λ path : list string, Int (len path) = Inf) ∅)
      with (∅ : gset (list string)); [done|].
    symmetry. apply set_eq. intros p. rewrite elem_of_filter.
    split; [by intros [? _]|by intros ?%not_elem_of_empty].
Qed.

Lemma queries_from_vertex_without_neighbors_witness :
  get_shortest_bfs_path 2 (Graph_init two_cycle_graph) "Z" "A"
  = Some (Returned [])
  ∧ get_shortest_bfs_path_length 2 (Graph_init two_cycle_graph) "Z" "A"
    = Some (Returned 0%Z)
  ∧ get_all_shortest_bfs_paths 2 (Graph_init two_cycle_graph) "Z" "A"
    = Some (Returned ∅).
Proof.
  apply (queries_from_vertex_without_neighbors
           (Graph_init two_cycle_graph) "Z" "A" 0).
  vm_compute. reflexivity.
Defined.

(** ** [get_all_shortest_bfs_paths] returns exactly the shortest paths *)

Lemma get_all_shortest_bfs_paths_same_vertex (g : Graph) (v : string)
    (fuel : nat) :
  bfs_budget g ≤ fuel →
  get_all_shortest_bfs_paths fuel g v v = Some (Returned ∅).
Proof.
  intros Hfuel.
  destruct (get_all_shortest_bfs_paths_terminates g v v) as [r Hrun].
  rewrite (Hrun fuel Hfuel). specialize (Hrun _ (le_n _)).
  unfold get_all_shortest_bfs_paths in Hrun.
  destruct (all_while _ _ _ _) as [r0|] eqn:Hwhile; [|done].
  assert (∃ st', r0 = Returned st' ∧ paths st' = ∅) as (st' & -> & Hempty).
  { eapply all_while_same_vertex; [| |exact Hwhile]; simpl; [|done].
    apply Forall_singleton. left. }
  injection Hrun as <-. do 2 f_equal. rewrite Hempty.
  apply set_eq. intros p. rewrite elem_of_filter.
  split; [by intros [_ ?]|by intros ?%not_elem_of_empty].
Qed.

(** X10.  [get_all_shortest_bfs_paths(v, v)] is the empty set on every
    graph, cycles and self-loops included: unlike [get_shortest_bfs_path] it
    tests for the target only at a fresh neighbour. *)
Theorem get_all_shortest_bfs_paths_to_itself_is_empty
    (adjacency : gmap string (list string)) (v : string) (fuel : nat) :
  bfs_budget (Graph_init adjacency) ≤ fuel →
  get_all_shortest_bfs_paths fuel (Graph_init adjacency) v v
  = Some (Returned ∅).
Proof. apply get_all_shortest_bfs_paths_same_vertex. Qed.

Lemma get_all_shortest_bfs_paths_to_itself_is_empty_witness :
  get_all_shortest_bfs_paths 20 (Graph_init self_loop_graph) "A" "A"
  = Some (Returned ∅).
Proof.
  apply (get_all_shortest_bfs_paths_to_itself_is_empty
           self_loop_graph "A" 20).
  vm_compute. lia.
Defined.

Lemma tracks_step_exact (g : Graph) (start target : string)
    (w h : list string) (u : string) (q : list (list string)) :
  simple_path g start target w → last h = Some u → tracks w (h :: q) →
  tracks w (q ++ expand g target h u)
  ∨ (w = h ++ [target] ∧ target ∈ get_neighbors g u).
Proof.
  intros Hw Hlast Htr.
  destruct (tracks_step g start target w h u q Hw Hlast Htr)
    as [?|[Hlen Hin]]; [by left|].
  destruct Htr as (i & Hi & [Hh|Hq]%elem_of_cons).
  - right. split; [|done].
    assert (length h = S i) as Hhlen by (rewrite <- Hh, length_take; lia).
    destruct (lookup_lt_is_Some_2 w (S i) Hi) as [v Hv].
    assert (v = target) as ->.
    { destruct Hw as [(_ & Hl & _) _]. rewrite last_lookup in Hl.
      replace (pred (length w)) with (S i) in Hl by lia. congruence. }
    rewrite <- Hh, <- (take_S_r _ _ _ Hv), take_ge; [done|lia].
  - left. exists i. split; [done|]. apply elem_of_app. by left.
Qed.

Lemma all_body_keeps_paths (target : string) (h : list string)
    (st : all_state) (n : string) (p : list string) :
  p ∈ paths st → p ∈ paths (all_body target h st n).
Proof.
  intros Hp. unfold all_body. destruct (decide (n ∉ h)); [|done].
  destruct (decide (n = target)); [|done].
  destruct (int_le _ _); [|done]. simpl. apply elem_of_union. by right.
Qed.

Lemma all_for_keeps_paths (target : string) (h ns : list string)
    (st : all_state) (p : list string) :
  p ∈ paths st → p ∈ paths (foldl (all_body target h) st ns).
Proof.
  revert st. induction ns as [|n ns IH]; intros st Hp; simpl; [done|].
  by apply IH, all_body_keeps_paths.
Qed.

Lemma all_for_min_length (target : string) (h ns : list string)
    (st : all_state) :
  min_length (foldl (all_body target h) st ns) = min_length st
  ∨ (min_length (foldl (all_body target h) st ns)
     = Int (len (h ++ [target]))
     ∧ target ∈ ns ∧ target ∉ h).
Proof.
  revert st. induction ns as [|n ns IH]; intros st; simpl; [by left|].
  destruct (IH (all_body target h st n)) as [->|(-> & ? & ?)].
  - unfold all_body. destruct (decide (n ∉ h)); [|by left].
    destruct (decide (n = target)) as [->|]; [|by left].
    destruct (int_le _ _); [|by left]. right. split; [done|].
    split; [left|done].
  - right. split; [done|]. split; [by right|done].
Qed.

Lemma all_for_records (target : string) (h ns : list string)
    (st : all_state) :
  target ∈ ns → target ∉ h →
  (∀ m, min_length st = Int m → (len (h ++ [target]) ≤ m)%Z) →
  h ++ [target] ∈ paths (foldl (all_body target h) st ns).
Proof.
  intros Hin Ht. revert st.
  induction ns as [|n ns IH]; intros st Hmin; simpl.
  { by apply elem_of_nil in Hin. }
  destruct (decide (n = target)) as [->|Hne].
  - apply all_for_keeps_paths. unfold all_body.
    rewrite decide_True by done. rewrite decide_True by done.
    assert (int_le (len (h ++ [target])) (min_length st) = true) as ->.
    { destruct (min_length st) as [m|] eqn:Hm; [|done].
      apply Z.leb_le. by apply Hmin. }
    simpl. apply elem_of_union. left. by apply elem_of_singleton.
  - apply elem_of_cons in Hin as [?|Hin]; [done|].
    apply IH; [done|]. unfold all_body.
    destruct (decide (n ∉ h)); [|done]. by rewrite decide_False by done.
Qed.

(** A shortest path is recorded, and never displaced: the running minimum
    does not fall below its length. *)
Lemma all_while_complete (g : Graph) (source target : string)
    (w : list string) (fuel : nat) (st st' : all_state) :
  simple_path g source target w →
  (∀ w', path_between g source target w' → length w ≤ length w') →
  Forall (frontier_path g source target) (queue st) →
  w ∈ paths st ∨ tracks w (queue st) →
  (∀ m, min_length st = Int m → (len w ≤ m)%Z) →
  all_while fuel g target st = Some (Returned st') →
  w ∈ paths st' ∧ ∀ m, min_length st' = Int m → (len w ≤ m)%Z.
Proof.
  intros Hw Hshort. revert st.
  induction fuel as [|fuel IH]; intros st Hq Hcase Hmin; [done|].
  simpl. destruct (queue st) as [|h q] eqn:Hqueue.
  { intros [= <-]. split; [|done].
    destruct Hcase as [?|(? & _ & []%elem_of_nil)]. done. }
  apply Forall_cons in Hq as [Hh Hq].
  pose proof Hh as (Hhead & Hwalk & Hnd & Ht).
  destruct (last h) as [u|] eqn:Hlast; [|done].
  set (st0 := mkAll (paths st) q (min_length st)).
  assert (∀ m, min_length st0 = Int m → (len w ≤ m)%Z) as Hmin0 by done.
  apply IH.
  - rewrite all_for_queue. simpl. apply Forall_app. split; [done|].
    by apply frontier_expand.
  - destruct Hcase as [Hp|Htr]; [left; by apply all_for_keeps_paths|].
    rewrite all_for_queue. simpl.
    destruct (tracks_step_exact g source target w h u q Hw Hlast Htr)
      as [?|[-> Hin]]; [by right|left].
    by apply all_for_records.
  - intros m Hm.
    destruct (all_for_min_length target h (get_neighbors g u) st0)
      as [Heq|(Heq & Hin & _)]; rewrite Heq in Hm; [by apply Hmin0|].
    injection Hm as <-.
    assert (path_between g source target (h ++ [target])) as Hpath.
    { repeat split.
      - by destruct h.
      - apply last_snoc.
      - by eapply walk_extend. }
    apply Hshort in Hpath. unfold len. lia.
Qed.

Lemma shortest_is_simple (g : Graph) (a b : string) (p : list string) :
  path_between g a b p →
  (∀ w, path_between g a b w → length p ≤ length w) →
  NoDup p.
Proof.
  intros Hp Hshort. destruct (decide (NoDup p)) as [|Hnd]; [done|].
  destruct (path_between_cut g a b p Hp Hnd) as (w & Hw & Hlt).
  apply Hshort in Hw. lia.
Qed.

Lemma all_shortest_paths_exact (g : Graph) (a b : string) :
  a ≠ b →
  ∃ ps,
    (∀ fuel, bfs_budget g ≤ fuel →
       get_all_shortest_bfs_paths fuel g a b = Some (Returned ps))
    ∧ ∀ p, p ∈ ps
           ↔ path_between g a b p
             ∧ ∀ w, path_between g a b w → length p ≤ length w.
Proof.
  intros Hne.
  destruct (get_all_shortest_bfs_paths_terminates g a b) as [r Hrun].
  pose proof (Hrun _ (le_n _)) as Hbudget.
  unfold get_all_shortest_bfs_paths in Hbudget.
  destruct (all_while _ _ _ _) as [r0|] eqn:Hwhile; [|done].
  destruct (all_while_correct g a b _ (mkAll ∅ [[a]] Inf) _
              (frontier_start g a b Hne) (ordered_singleton _)
              (λ p (H : p ∈ (∅ : gset (list string))),
                 False_ind _ (not_elem_of_empty p H))
              Hwhile)
    as (st' & -> & Hpaths & Hmin).
  simpl in Hmin. injection Hbudget as <-.
  eexists. split; [done|]. intros p. rewrite elem_of_filter. split.
  - intros [Hlen Hp]. destruct (Hpaths p Hp) as [Hpath _].
    split; [done|]. intros w Hw.
    destruct (path_between_simple g a b _ w (le_n _) Hw)
      as (w' & Hw' & Hle).
    specialize (Hmin w' Hw' (or_intror (tracks_start g a b w' Hne Hw'))).
    rewrite <- Hlen in Hmin. simpl in Hmin. unfold len in Hmin. lia.
  - intros [Hpath Hshort].
    assert (simple_path g a b p) as Hsimple
      by (split; [done|by eapply shortest_is_simple]).
    destruct (all_while_complete g a b p _ (mkAll ∅ [[a]] Inf) st'
                Hsimple Hshort (frontier_start g a b Hne)
                (or_intror (tracks_start g a b p Hne Hsimple))
                ltac:(done) Hwhile) as [Hin Hge].
    split; [|done].
    specialize (Hmin p Hsimple (or_intror (tracks_start g a b p Hne Hsimple))).
    destruct (min_length st') as [m|]; [|done]. simpl in Hmin.
    specialize (Hge m eq_refl). f_equal. lia.
Qed.

(** X11.  Between distinct vertices [get_all_shortest_bfs_paths] returns
    exactly the shortest paths: a tuple is in the result if and only if it
    leads from [a] to [b] along [get_neighbors] edges and no walk from [a]
    to [b] is shorter. *)
Theorem get_all_shortest_bfs_paths_exact
    (adjacency : gmap string (list string)) (a b : string) :
  a ≠ b →
  ∃ ps,
    (∀ fuel, bfs_budget (Graph_init adjacency) ≤ fuel →
       get_all_shortest_bfs_paths fuel (Graph_init adjacency) a b
       = Some (Returned ps))
    ∧ ∀ p, p ∈ ps
           ↔ path_between (Graph_init adjacency) a b p
             ∧ ∀ w, path_between (Graph_init adjacency) a b w →
                    length p ≤ length w.
Proof. apply all_shortest_paths_exact. Qed.

Lemma get_all_shortest_bfs_paths_exact_witness :
  ∃ ps,
    (∀ fuel, bfs_budget (Graph_init diamond_bc) ≤ fuel →
       get_all_shortest_bfs_paths fuel (Graph_init diamond_bc) "A" "D"
       = Some (Returned ps))
    ∧ ∀ p, p ∈ ps
           ↔ path_between (Graph_init diamond_bc) "A" "D" p
             ∧ ∀ w, path_between (Graph_init diamond_bc) "A" "D" w →
                    length p ≤ length w.
Proof.
  apply (get_all_shortest_bfs_paths_exact diamond_bc "A" "D"). discriminate.
Defined.

(** X12.  Between distinct vertices the tuple of [get_shortest_bfs_path] is
    one of the elements of [get_all_shortest_bfs_paths], and the one is the
    empty tuple exactly when the other is the empty set. *)
Theorem shortest_path_among_all_shortest
    (adjacency : gmap string (list string)) (a b : string) :
  a ≠ b →
  ∃ p ps,
    (∀ fuel, bfs_budget (Graph_init adjacency) ≤ fuel →
       get_shortest_bfs_path fuel (Graph_init adjacency) a b
       = Some (Returned p))
    ∧ (∀ fuel, bfs_budget (Graph_init adjacency) ≤ fuel →
         get_all_shortest_bfs_paths fuel (Graph_init adjacency) a b
         = Some (Returned ps))
    ∧ (p ≠ [] → p ∈ ps)
    ∧ (p = [] ↔ ps = ∅).
Proof.
  intros Hne. generalize (Graph_init adjacency). intros g.
  destruct (shortest_bfs_path_correct g a b Hne) as (p & Hp & Hsimple & Hmin).
  destruct (all_shortest_paths_exact g a b Hne) as (ps & Hps & Hexact).
  exists p, ps. split; [done|]. split; [done|].
  assert (p ≠ [] → p ∈ ps) as Hin.
  { intros Hnil. destruct Hsimple as [?|[Hpath _]]; [done|].
    apply Hexact. split; [done|]. intros w Hw. by apply Hmin. }
  split; [done|]. split.
  - intros ->. apply set_eq. intros q.
    split; [|by intros ?%not_elem_of_empty].
    intros [Hq _]%Hexact. by destruct (Hmin q Hq).
  - intros ->. destruct (decide (p = [])) as [|Hnil]; [done|].
    by apply Hin, not_elem_of_empty in Hnil.
Qed.

Lemma shortest_path_among_all_shortest_witness :
  ∃ p ps,
    (∀ fuel, bfs_budget (Graph_init diamond_bc) ≤ fuel →
       get_shortest_bfs_path fuel (Graph_init diamond_bc) "A" "D"
       = Some (Returned p))
    ∧ (∀ fuel, bfs_budget (Graph_init diamond_bc) ≤ fuel →
         get_all_shortest_bfs_paths fuel (Graph_init diamond_bc) "A" "D"
         = Some (Returned ps))
    ∧ (p ≠ [] → p ∈ ps)
    ∧ (p = [] ↔ ps = ∅).
Proof.
  apply (shortest_path_among_all_shortest diamond_bc "A" "D"). discriminate.
Defined.

(** ** The shape of a [LadderGraph] *)

Lemma lower_ascii_idemp (c : ascii) :
  lower_ascii (lower_ascii c) = lower_ascii c.
Proof. destruct c as [[] [] [] [] [] [] [] []]; reflexivity. Qed.

Lemma lower_idemp (s : string) : lower (lower s) = lower s.
Proof.
  induction s as [|c s IH]; [done|]. simpl.
  by rewrite lower_ascii_idemp, IH.
Qed.

Lemma lower_known (word_list : list string) (w : string) :
  w ∈ lower <$> word_list → lower w = w.
Proof. intros (x & -> & _)%list_elem_of_fmap. apply lower_idemp. Qed.

Lemma NoDup_set_add (x : string) (s : list string) :
  NoDup s → NoDup (set_add x s).
Proof.
  intros Hs. unfold set_add. case_decide; [done|].
  apply NoDup_app. split; [done|]. split; [|apply NoDup_singleton].
  intros y ? ->%list_elem_of_singleton. done.
Qed.

Lemma NoDup_ladder_neighbors (u : string) (word_list : list string) :
  NoDup (ladder_neighbors u word_list).
Proof.
  unfold ladder_neighbors.
  enough (∀ l s, NoDup s →
    NoDup (foldl (λ s other_word,
                    if decide (u ≠ lower other_word
                               ∧ hamming_distance u (lower other_word) = 1)
                    then set_add (lower other_word) s else s) s l)) as H
    by apply H, NoDup_nil_2.
  induction l as [|o l IH]; intros s Hs; simpl; [done|].
  apply IH. case_decide; [by apply NoDup_set_add|done].
Qed.

Lemma ladder_graph_NoDup (g : Graph) (word_list : list string) (u : string) :
  ladder_graph g word_list → NoDup (get_neighbors g u).
Proof.
  intros (adj & -> & Hadj). rewrite get_neighbors_init.
  specialize (Hadj u). rewrite build_adj_list_lookup in Hadj.
  inversion Hadj as [ns ns' Hperm Hns Hns'|]; simpl; [|apply NoDup_nil_2].
  rewrite Hperm. case_decide; simplify_eq. apply NoDup_ladder_neighbors.
Qed.

Lemma ladder_graph_symmetric (g : Graph) (word_list : list string)
    (u w : string) :
  ladder_graph g word_list →
  w ∈ get_neighbors g u → u ∈ get_neighbors g w.
Proof.
  intros Hg. rewrite !(ladder_graph_neighbors g word_list Hg).
  rewrite (hamming_distance_comm w u).
  intros (? & ? & ? & ?). repeat split; done.
Qed.

(** X13.  A graph constructed by [LadderGraph] is undirected and closed:
    whenever [w] is a neighbour of [u], [u] is a neighbour of [w] and both
    are vertices; and no neighbour set lists a word twice. *)
Theorem ladder_graph_undirected (g : Graph) (word_list : list string) :
  ladder_graph g word_list →
  (∀ u w, w ∈ get_neighbors g u →
          u ∈ get_neighbors g w
          ∧ is_vertex g u = true ∧ is_vertex g w = true)
  ∧ ∀ u, NoDup (get_neighbors g u).
Proof.
  intros Hg. split; [|intros u; by eapply ladder_graph_NoDup].
  intros u w Hw. split; [by eapply ladder_graph_symmetric|].
  apply (ladder_graph_neighbors g word_list Hg) in Hw as (Hu & Hw & _).
  unfold is_vertex. rewrite !bool_decide_eq_true.
  rewrite (ladder_graph_vertices g word_list Hg), !elem_of_list_to_set.
  done.
Qed.

Lemma ladder_graph_undirected_witness :
  (∀ u w, w ∈ get_neighbors (LadderGraph_init mixed_words) u →
          u ∈ get_neighbors (LadderGraph_init mixed_words) w
          ∧ is_vertex (LadderGraph_init mixed_words) u = true
          ∧ is_vertex (LadderGraph_init mixed_words) w = true)
  ∧ ∀ u, NoDup (get_neighbors (LadderGraph_init mixed_words) u).
Proof.
  apply (ladder_graph_undirected (LadderGraph_init mixed_words) mixed_words).
  exists (build_adj_list mixed_words).
  split; [reflexivity|]. intros v. reflexivity.
Defined.

Lemma string_ltb_flip (u v : string) :
  u ≠ v → String.ltb v u = false → String.ltb u v = true.
Proof.
  unfold String.ltb. intros Hne.
  rewrite (String.compare_antisym v u).
  destruct (String.compare u v) eqn:Hc; simpl; try done.
  by apply String.compare_eq_iff in Hc.
Qed.

Lemma string_ltb_asym (u v : string) :
  String.ltb u v = true → String.ltb v u = false.
Proof.
  unfold String.ltb. rewrite (String.compare_antisym u v).
  by destruct (String.compare v u).
Qed.

(** X14.  The edge set of a graph constructed by [LadderGraph] holds each
    pair of words at Hamming distance 1 exactly once, smaller word first:
    [(u, v)] is an edge if and only if [u < v], both are vertices and their
    distance is 1. *)
Theorem ladder_graph_edges (g : Graph) (word_list : list string)
    (u v : string) :
  ladder_graph g word_list →
  (u, v) ∈ edges g
  ↔ String.ltb u v = true ∧ u ∈ vertices g ∧ v ∈ vertices g
    ∧ hamming_distance u v = 1.
Proof.
  intros Hg.
  assert (∀ x y, y ∈ get_neighbors g x
                 ↔ x ∈ vertices g ∧ y ∈ vertices g ∧ x ≠ y
                   ∧ hamming_distance x y = 1) as Hnb.
  { intros x y. rewrite (ladder_graph_neighbors g word_list Hg).
    by rewrite (ladder_graph_vertices g word_list Hg), !elem_of_list_to_set. }
  pose proof (ladder_graph_symmetric g word_list) as Hsym.
  destruct Hg as (adj & -> & Hadj).
  rewrite elem_of_edges. split.
  - intros (x & ns & n & Hx & Hn & He).
    assert (n ∈ get_neighbors (Graph_init adj) x) as Hxn
      by (apply elem_of_get_neighbors_init; eauto).
    unfold sorted_pair in He. destruct (String.ltb n x) eqn:Hlt.
    + injection He as -> ->. split; [done|].
      apply Hsym, Hnb in Hxn; [tauto|by exists adj].
    + injection He as -> ->. apply Hnb in Hxn as (? & ? & ? & ?).
      split; [by apply string_ltb_flip|done].
  - intros (Hlt & Hu & Hv & Hd).
    assert (v ∈ get_neighbors (Graph_init adj) u) as Huv.
    { apply Hnb. repeat split; try done. intros ->.
      apply string_ltb_asym in Hlt as Hlt'. congruence. }
    apply elem_of_get_neighbors_init in Huv as (ns & Hns & Hin).
    exists u, ns, v. repeat split; try done.
    unfold sorted_pair. by rewrite (string_ltb_asym u v Hlt).
Qed.

Lemma ladder_graph_edges_witness :
  ("ab"%string, "ac"%string) ∈ edges (LadderGraph_init three_words)
  ↔ String.ltb "ab" "ac" = true
    ∧ "ab"%string ∈ vertices (LadderGraph_init three_words)
    ∧ "ac"%string ∈ vertices (LadderGraph_init three_words)
    ∧ hamming_distance "ab" "ac" = 1.
Proof.
  apply (ladder_graph_edges (LadderGraph_init three_words) three_words).
  exists (build_adj_list three_words).
  split; [reflexivity|]. intros v. reflexivity.
Defined.

(** X15.  The order of the word list, repeated words and the case of the
    letters do not matter to [LadderGraph]: two word lists with the same
    lowercased words give the same vertices and the same neighbours. *)
Theorem ladder_graph_depends_on_lowercased_words
    (g g' : Graph) (word_list word_list' : list string) :
  (∀ x, x ∈ lower <$> word_list ↔ x ∈ lower <$> word_list') →
  ladder_graph g word_list → ladder_graph g' word_list' →
  vertices g = vertices g'
  ∧ ∀ u w, w ∈ get_neighbors g u ↔ w ∈ get_neighbors g' u.
Proof.
  intros Hsame Hg Hg'. split.
  - rewrite (ladder_graph_vertices g word_list Hg),
      (ladder_graph_vertices g' word_list' Hg').
    apply set_eq. intros x. by rewrite !elem_of_list_to_set.
  - intros u w. rewrite (ladder_graph_neighbors g word_list Hg),
      (ladder_graph_neighbors g' word_list' Hg'), !Hsame. done.
Qed.

Lemma ladder_graph_depends_on_lowercased_words_witness :
  vertices (LadderGraph_init ["AB"; "bc"; "ac"; "Ab"]%string)
  = vertices (LadderGraph_init three_words)
  ∧ ∀ u w, w ∈ get_neighbors (LadderGraph_init ["AB"; "bc"; "ac"; "Ab"]%string) u
           ↔ w ∈ get_neighbors (LadderGraph_init three_words) u.
Proof.
  apply (ladder_graph_depends_on_lowercased_words
           (LadderGraph_init ["AB"; "bc"; "ac"; "Ab"]%string)
           (LadderGraph_init three_words)
           ["AB"; "bc"; "ac"; "Ab"]%string three_words).
  - intros x.
    replace (lower <$> ["AB"; "bc"; "ac"; "Ab"]%string)
      with ["ab"; "bc"; "ac"; "ab"]%string by reflexivity.
    replace (lower <$> three_words)
      with ["ab"; "ac"; "bc"]%string by reflexivity.
    rewrite !elem_of_cons, !elem_of_nil. tauto.
  - exists (build_adj_list ["AB"; "bc"; "ac"; "Ab"]%string).
    split; [reflexivity|]. intros v. reflexivity.
  - exists (build_adj_list three_words).
    split; [reflexivity|]. intros v. reflexivity.
Defined.

(** ** Ladders read backwards *)

Lemma walk_reverse (g : Graph) (p : list string) :
  (∀ u v, v ∈ get_neighbors g u → u ∈ get_neighbors g v) →
  walk g p → walk g (reverse p).
Proof.
  intros Hsym. induction p as [|u p IH]; [done|].
  rewrite reverse_cons. intros [Hp Hu]%walk_cons.
  apply walk_snoc. split; [by apply IH|].
  intros x Hx. rewrite last_reverse in Hx. by apply Hsym, Hu.
Qed.

Lemma path_between_reverse (g : Graph) (a b : string) (p : list string) :
  (∀ u v, v ∈ get_neighbors g u → u ∈ get_neighbors g v) →
  path_between g a b p → path_between g b a (reverse p).
Proof.
  intros Hsym (Hhead & Hlast & Hw). repeat split.
  - by rewrite head_reverse.
  - by rewrite last_reverse.
  - by apply walk_reverse.
Qed.

Lemma shortest_length_symmetric (g : Graph) (a b : string)
    (p p' : list string) :
  (∀ u v, v ∈ get_neighbors g u → u ∈ get_neighbors g v) →
  p = [] ∨ simple_path g a b p →
  (∀ w, path_between g a b w → p ≠ [] ∧ length p ≤ length w) →
  p' = [] ∨ simple_path g b a p' →
  (∀ w, path_between g b a w → p' ≠ [] ∧ length p' ≤ length w) →
  length p = length p'.
Proof.
  intros Hsym Hp Hmin Hp' Hmin'.
  destruct Hp as [->|[Hp _]], Hp' as [->|[Hp' _]]; [done|..].
  - apply (path_between_reverse g b a) in Hp'; [|done].
    by destruct (Hmin _ Hp').
  - apply (path_between_reverse g a b) in Hp; [|done].
    by destruct (Hmin' _ Hp).
  - pose proof (path_between_reverse g a b p Hsym Hp) as Hr.
    pose proof (path_between_reverse g b a p' Hsym Hp') as Hr'.
    destruct (Hmin _ Hr') as [_ H1]. destruct (Hmin' _ Hr) as [_ H2].
    rewrite length_reverse in H1, H2. lia.
Qed.

(** X16.  On a graph constructed by [LadderGraph] the length of a shortest
    ladder does not depend on the direction: [get_shortest_bfs_path_length]
    gives the same number from [a] to [b] as from [b] to [a]. *)
Theorem ladder_distance_symmetric (g : Graph) (word_list : list string)
    (a b : string) :
  ladder_graph g word_list → a ≠ b →
  ∃ n, (∀ fuel, bfs_budget g ≤ fuel →
          get_shortest_bfs_path_length fuel g a b = Some (Returned n))
       ∧ (∀ fuel, bfs_budget g ≤ fuel →
            get_shortest_bfs_path_length fuel g b a = Some (Returned n)).
Proof.
  intros Hg Hne.
  destruct (shortest_bfs_path_correct g a b Hne) as (p & Hrun & Hp & Hmin).
  destruct (shortest_bfs_path_correct g b a (not_eq_sym Hne))
    as (p' & Hrun' & Hp' & Hmin').
  pose proof (shortest_length_symmetric g a b p p'
                (λ u v, ladder_graph_symmetric g word_list u v Hg)
                Hp Hmin Hp' Hmin') as Hlen.
  exists (match p with [] => 0%Z | _ => (len p - 1)%Z end).
  unfold get_shortest_bfs_path_length.
  split; intros fuel Hfuel; [by rewrite (Hrun fuel Hfuel)|].
  rewrite (Hrun' fuel Hfuel). do 2 f_equal. unfold len.
  destruct p, p'; simpl in *; try done. by rewrite Hlen.
Qed.

Lemma ladder_distance_symmetric_witness :
  ∃ n, (∀ fuel, bfs_budget (LadderGraph_init three_words) ≤ fuel →
          get_shortest_bfs_path_length fuel (LadderGraph_init three_words)
                                       "ab" "bc"
          = Some (Returned n))
       ∧ (∀ fuel, bfs_budget (LadderGraph_init three_words) ≤ fuel →
            get_shortest_bfs_path_length fuel (LadderGraph_init three_words)
                                         "bc" "ab"
            = Some (Returned n)).
Proof.
  apply (ladder_distance_symmetric
           (LadderGraph_init three_words) three_words "ab" "bc").
  - exists (build_adj_list three_words).
    split; [reflexivity|]. intros v. reflexivity.
  - discriminate.
Defined.

(** On an arbitrary [Graph] the direction matters: with the single entry
    A -> B the length from A to B is 1 and from B to A it is 0. *)
Example one_way_lengths :
  get_shortest_bfs_path_length 9
    (Graph_init (list_to_map [("A", ["B"]); ("B", [])]%string)) "A" "B"
  = Some (Returned 1%Z)
  ∧ get_shortest_bfs_path_length 9
      (Graph_init (list_to_map [("A", ["B"]); ("B", [])]%string)) "B" "A"
    = Some (Returned 0%Z).
Proof. split; vm_compute; reflexivity. Qed.

(** ** [is_valid_ladder] *)

Lemma is_valid_ladder_iff (ladder : list string) :
  is_valid_ladder ladder = true
  ↔ 2 ≤ length ladder
    ∧ ∀ i w1 w2, ladder !! i = Some w1 → ladder !! S i = Some w2 →
                 hamming_distance (lower w1) (lower w2) = 1.
Proof.
  unfold is_valid_ladder. case_decide as Hlen.
  { split; [done | lia]. }
  rewrite forallb_forall. split.
  - intros H. split; [lia|]. intros i w1 w2 H1 H2.
    specialize (H i). rewrite Nat.add_1_r, H1, H2 in H.
    eapply bool_decide_eq_true_1, H, in_seq.
    apply lookup_lt_Some in H2. lia.
  - intros [_ H] i Hi. apply in_seq in Hi. rewrite Nat.add_1_r.
    destruct (ladder !! i) as [w1|] eqn:H1;
      [|apply lookup_ge_None in H1; lia].
    destruct (ladder !! S i) as [w2|] eqn:H2;
      [|apply lookup_ge_None in H2; lia].
    apply bool_decide_eq_true_2. eauto.
Qed.

Lemma bool_eq_iff (b1 b2 : bool) : (b1 = true ↔ b2 = true) → b1 = b2.
Proof. destruct b1, b2; intros [H1 H2]; auto; by (symmetry; auto). Qed.

Lemma is_valid_ladder_reverse_1 (ladder : list string) :
  is_valid_ladder ladder = true → is_valid_ladder (reverse ladder) = true.
Proof.
  rewrite !is_valid_ladder_iff, length_reverse. intros [Hlen H].
  split; [done|]. intros i w1 w2 H1 H2.
  assert (S i < length ladder)
    by (apply lookup_lt_Some in H2; by rewrite length_reverse in H2).
  rewrite reverse_lookup in H1 by lia. rewrite reverse_lookup in H2 by lia.
  rewrite hamming_distance_comm.
  apply (H (length ladder - S (S i))); [done|].
  by replace (S (length ladder - S (S i))) with (length ladder - S i) by lia.
Qed.

(** X17.  A ladder is valid read backwards exactly when it is valid read
    forwards, and in lower case exactly when it is valid as written;
    [get_rung_length] is the same for all three. *)
Theorem is_valid_ladder_reverse_and_case (ladder : list string) :
  is_valid_ladder (reverse ladder) = is_valid_ladder ladder
  ∧ is_valid_ladder (lower <$> ladder) = is_valid_ladder ladder
  ∧ get_rung_length (reverse ladder) = get_rung_length ladder
  ∧ get_rung_length (lower <$> ladder) = get_rung_length ladder.
Proof.
  assert (is_valid_ladder (reverse ladder) = is_valid_ladder ladder) as Hrev.
  { apply bool_eq_iff. split; [|apply is_valid_ladder_reverse_1].
    intros H%is_valid_ladder_reverse_1. by rewrite reverse_involutive in H. }
  assert (is_valid_ladder (lower <$> ladder) = is_valid_ladder ladder)
    as Hlow.
  { apply bool_eq_iff. rewrite !is_valid_ladder_iff, length_fmap.
    split; intros [Hlen H]; (split; [done|]); intros i w1 w2 H1 H2.
    - specialize (H i (lower w1) (lower w2)).
      rewrite !list_lookup_fmap, H1, H2, !lower_idemp in H. by apply H.
    - rewrite list_lookup_fmap in H1, H2.
      destruct (ladder !! i) as [x1|] eqn:Hx1; [|done].
      destruct (ladder !! S i) as [x2|] eqn:Hx2; [|done].
      simplify_eq/=. rewrite !lower_idemp. by eapply H. }
  unfold get_rung_length, len.
  rewrite Hrev, Hlow, length_reverse, length_fmap. done.
Qed.

(** X18.  On words that are all known, [is_valid_ladder] agrees with the
    graph: the ladder is valid exactly when it has at least two entries and
    each lowercased entry is a neighbour of the one before it. *)
Theorem is_valid_ladder_follows_edges (g : Graph) (word_list : list string)
    (ladder : list string) :
  ladder_graph g word_list →
  (∀ w, w ∈ ladder → is_valid_word g w = true) →
  is_valid_ladder ladder = true
  ↔ 2 ≤ length ladder ∧ walk g (lower <$> ladder).
Proof.
  intros Hg Hknown. rewrite is_valid_ladder_iff.
  assert (∀ i w, ladder !! i = Some w → lower w ∈ lower <$> word_list)
    as Hin.
  { intros i w Hw. apply list_elem_of_lookup_2, Hknown in Hw.
    unfold is_valid_word in Hw. apply bool_decide_eq_true_1 in Hw.
    rewrite (ladder_graph_vertices g word_list Hg) in Hw.
    by apply elem_of_list_to_set in Hw. }
  split; intros [Hlen H]; (split; [done|]).
  - intros i u v Hu Hv. rewrite list_lookup_fmap in Hu, Hv.
    destruct (ladder !! i) as [x1|] eqn:Hx1; [|done].
    destruct (ladder !! S i) as [x2|] eqn:Hx2; [|done].
    simplify_eq/=. apply (ladder_graph_neighbors g word_list Hg).
    pose proof (H i x1 x2 Hx1 Hx2) as Hd.
    repeat split; eauto.
    intros Heq. rewrite Heq, hamming_distance_refl in Hd. done.
  - intros i w1 w2 H1 H2.
    assert (lower w2 ∈ get_neighbors g (lower w1)) as Hnb.
    { apply (H i); by rewrite list_lookup_fmap, ?H1, ?H2. }
    apply (ladder_graph_neighbors g word_list Hg) in Hnb. tauto.
Qed.

Lemma is_valid_ladder_follows_edges_witness :
  is_valid_ladder ["AB"; "ac"; "bc"]%string = true
  ↔ 2 ≤ length ["AB"; "ac"; "bc"]%string
    ∧ walk (LadderGraph_init three_words) (lower <$> ["AB"; "ac"; "bc"]%string).
Proof.
  apply (is_valid_ladder_follows_edges
           (LadderGraph_init three_words) three_words).
  - exists (build_adj_list three_words).
    split; [reflexivity|]. intros v. reflexivity.
  - intros w Hw. rewrite !elem_of_cons, elem_of_nil in Hw.
    destruct Hw as [->|[->|[->|[]]]]; vm_compute; reflexivity.
Defined.

(** [is_valid_ladder] never consults the graph: words that are no vertices
    make a valid ladder too. *)
Example is_valid_ladder_unknown_words :
  is_valid_ladder ["zzzz"; "zzzy"]%string = true
  ∧ is_valid_word myLadderGraph "zzzz" = false.
Proof. split; vm_compute; reflexivity. Qed.

(** ** What [get_all_ladders] returns *)

Lemma simple_ladder_is_valid (word_list : list string) (s t : string)
    (q : list string) :
  s ≠ t → simple_ladder word_list s t q → is_valid_ladder q = true.
Proof.
  intros Hne (Hhead & Hlast & _ & Hknown & Hham).
  apply is_valid_ladder_iff. split.
  - destruct q as [|x [|y q]]; simplify_eq/=. lia.
  - intros i w1 w2 H1 H2.
    rewrite (lower_known word_list w1), (lower_known word_list w2)
      by eauto using list_elem_of_lookup_2.
    by eapply Hham.
Qed.

(** X19.  Between two different words, every ladder that
    [get_all_ladders(start, target, max_rungs)] returns on a graph
    constructed by [LadderGraph] is accepted by [is_valid_ladder], and its
    [get_rung_length] plus one is at most [max_rungs]: the bound counts the
    steps of a ladder, one more than its rungs. *)
Theorem get_all_ladders_returns_valid_ladders (g : Graph)
    (word_list : list string) (start target : string) (max_rungs : number) :
  ladder_graph g word_list → lower start ≠ lower target →
  ∃ ladders,
    (∀ fuel, depth_budget g ≤ fuel →
       get_all_ladders fuel g start target max_rungs = Some ladders)
    ∧ ∀ q, q ∈ ladders →
           is_valid_ladder q = true
           ∧ at_most (get_rung_length q + 1) max_rungs.
Proof.
  intros Hg Hne.
  destruct (get_all_ladders_terminates g start target max_rungs)
    as [ladders Hrun].
  exists ladders. split; [done|]. intros q Hq.
  specialize (Hrun _ (le_n _)).
  destruct (decide (lower start ∉ vertices g ∨ lower target ∉ vertices g))
    as [Hunknown|Hknown].
  { unfold get_all_ladders in Hrun. rewrite decide_True in Hrun by done.
    injection Hrun as <-. by apply not_elem_of_empty in Hq. }
  assert (lower start ∈ vertices g ∧ lower target ∈ vertices g)
    as [Hs Ht].
  { split; apply dec_stable; tauto. }
  apply (get_all_ladders_known _ _ _ _ _ _ Hs Ht Hrun) in Hq
    as (Hhead & Hw & Hnd & Hlast & Hgt).
  assert (simple_ladder word_list (lower start) (lower target) q) as Hlad.
  { apply (ladder_graph_walk g word_list Hg); [|done].
    rewrite (ladder_graph_vertices g word_list Hg) in Hs.
    by apply elem_of_list_to_set in Hs. }
  pose proof (simple_ladder_is_valid _ _ _ _ Hne Hlad) as Hvalid.
  split; [done|]. unfold get_rung_length. rewrite Hvalid. simpl.
  apply int_gt_false in Hgt. destruct max_rungs; simpl in *; [lia|done].
Qed.

Lemma get_all_ladders_returns_valid_ladders_witness :
  ∃ ladders,
    (∀ fuel, depth_budget (LadderGraph_init three_words) ≤ fuel →
       get_all_ladders fuel (LadderGraph_init three_words) "AB" "bc" (Int 2)
       = Some ladders)
    ∧ ∀ q, q ∈ ladders →
           is_valid_ladder q = true
           ∧ at_most (get_rung_length q + 1) (Int 2).
Proof.
  apply (get_all_ladders_returns_valid_ladders
           (LadderGraph_init three_words) three_words "AB" "bc" (Int 2)).
  - exists (build_adj_list three_words).
    split; [reflexivity|]. intros v. reflexivity.
  - discriminate.
Defined.

(** With [max_rungs = 1] the ladder ab, ac, bc, which has one rung, is not
    returned; with [max_rungs = 2] it is. *)
Example get_all_ladders_counts_steps :
  get_rung_length ["ab"; "ac"; "bc"]%string = 1%Z
  ∧ get_all_ladders 4 (LadderGraph_init three_words) "ab" "bc" (Int 1)
    = Some ∅
  ∧ get_all_ladders 4 (LadderGraph_init three_words) "ab" "bc" (Int 2)
    = Some {[ ["ab"; "ac"; "bc"]%string ]}.
Proof. repeat split; vm_compute; reflexivity. Qed.

(** X20.  Raising the bound never loses a ladder: what [get_all_ladders]
    returns for [max_rungs] is contained in what it returns for every bound
    that is at least as large, the unbounded default included. *)
Theorem get_all_ladders_monotone (g : Graph) (start target : string)
    (max_rungs max_rungs' : number) :
  (∀ z, at_most z max_rungs → at_most z max_rungs') →
  ∃ ladders ladders',
    (∀ fuel, depth_budget g ≤ fuel →
       get_all_ladders fuel g start target max_rungs = Some ladders)
    ∧ (∀ fuel, depth_budget g ≤ fuel →
         get_all_ladders fuel g start target max_rungs' = Some ladders')
    ∧ ladders ⊆ ladders'.
Proof.
  intros Hle.
  destruct (get_all_ladders_terminates g start target max_rungs)
    as [ladders Hrun].
  destruct (get_all_ladders_terminates g start target max_rungs')
    as [ladders' Hrun'].
  exists ladders, ladders'. split; [done|]. split; [done|].
  specialize (Hrun _ (le_n _)). specialize (Hrun' _ (le_n _)).
  destruct (decide (lower start ∉ vertices g ∨ lower target ∉ vertices g))
    as [Hunknown|Hknown].
  { unfold get_all_ladders in Hrun. rewrite decide_True in Hrun by done.
    injection Hrun as <-. intros q ?%not_elem_of_empty. done. }
  assert (lower start ∈ vertices g ∧ lower target ∈ vertices g)
    as [Hs Ht].
  { split; apply dec_stable; tauto. }
  intros q Hq.
  apply (get_all_ladders_known _ _ _ _ _ _ Hs Ht Hrun) in Hq
    as (Hhead & Hw & Hnd & Hlast & Hgt).
  apply (get_all_ladders_known _ _ _ _ _ _ Hs Ht Hrun').
  split; [done|]. repeat split; try done.
  apply int_gt_false. apply int_gt_false in Hgt.
  specialize (Hle (len q - 1)%Z).
  destruct max_rungs, max_rungs'; simpl in *; try done.
  - assert (len q - 1 ≤ z0)%Z by (apply Hle; lia). lia.
  - pose proof (Hle I). lia.
Qed.

Lemma get_all_ladders_monotone_witness :
  ∃ ladders ladders',
    (∀ fuel, depth_budget myLadderGraph ≤ fuel →
       get_all_ladders fuel myLadderGraph "foul" "sage" (Int 6)
       = Some ladders)
    ∧ (∀ fuel, depth_budget myLadderGraph ≤ fuel →
         get_all_ladders fuel myLadderGraph "foul" "sage" Inf
         = Some ladders')
    ∧ ladders ⊆ ladders'.
Proof.
  apply (get_all_ladders_monotone myLadderGraph "foul" "sage" (Int 6) Inf).
  intros z _. exact I.
Defined.

(** X21.  Every shortest ladder is a ladder: the set returned by
    [get_all_shortest_ladders] is contained in the set returned by
    [get_all_ladders] with the unbounded default. *)
Theorem shortest_ladders_are_ladders (g : Graph) (start target : string) :
  ∃ shortest ladders,
    (∀ fuel, bfs_budget g ≤ fuel →
       get_all_shortest_ladders fuel g start target
       = Some (Returned shortest))
    ∧ (∀ fuel, depth_budget g ≤ fuel →
         get_all_ladders fuel g start target Inf = Some ladders)
    ∧ shortest ⊆ ladders.
Proof.
  destruct (get_all_ladders_terminates g start target Inf)
    as [ladders Hrun].
  unfold get_all_shortest_ladders.
  destruct (decide (lower start ∉ vertices g ∨ lower target ∉ vertices g))
    as [Hunknown|Hknown].
  { exists ∅, ladders. split; [done|]. split; [done|].
    intros q ?%not_elem_of_empty. done. }
  assert (lower start ∈ vertices g ∧ lower target ∈ vertices g)
    as [Hs Ht].
  { split; apply dec_stable; tauto. }
  destruct (decide (lower start = lower target)) as [Heq|Hne].
  { exists ∅, ladders. split; [|split; [done|]].
    - intros fuel Hfuel. rewrite Heq.
      by apply get_all_shortest_bfs_paths_same_vertex.
    - intros q ?%not_elem_of_empty. done. }
  destruct (all_shortest_paths_exact g (lower start) (lower target) Hne)
    as (ps & Hps & Hexact).
  exists ps, ladders. split; [done|]. split; [done|].
  intros q [Hpath Hshort]%Hexact.
  apply (get_all_ladders_known _ _ _ _ _ _ Hs Ht (Hrun _ (le_n _))).
  destruct Hpath as (Hhead & Hlast & Hw).
  split; [done|]. repeat split; try done.
  by eapply shortest_is_simple.
Qed.

(** ** [get_shortest_ladder] *)

(** X22.  Between two different words [get_shortest_ladder] returns, on a
    graph constructed by [LadderGraph], either the empty tuple or a simple
    ladder of known words that [is_valid_ladder] accepts; and whenever some
    simple ladder joins the two words the result is not empty and no ladder
    has a smaller [get_rung_length]. *)
Theorem get_shortest_ladder_is_shortest_ladder (g : Graph)
    (word_list : list string) (start target : string) :
  ladder_graph g word_list → lower start ≠ lower target →
  ∃ p,
    (∀ fuel, bfs_budget g ≤ fuel →
       get_shortest_ladder fuel g start target = Some (Returned p))
    ∧ (p = []
       ∨ (simple_ladder word_list (lower start) (lower target) p
          ∧ is_valid_ladder p = true))
    ∧ ∀ q, simple_ladder word_list (lower start) (lower target) q →
           p ≠ [] ∧ (get_rung_length p ≤ get_rung_length q)%Z.
Proof.
  intros Hg Hne. unfold get_shortest_ladder.
  pose proof (ladder_graph_vertices g word_list Hg) as Hv.
  assert (∀ q, simple_ladder word_list (lower start) (lower target) q →
               lower start ∈ vertices g ∧ lower target ∈ vertices g)
    as Hends.
  { intros q (Hhead & Hlast & _ & Hknown & _).
    rewrite Hv, !elem_of_list_to_set.
    split; apply Hknown;
      [by apply head_Some_elem_of|by apply last_Some_elem_of]. }
  case_decide as Hunknown.
  { exists []. split; [done|]. split; [by left|].
    intros q [??]%Hends. tauto. }
  assert (lower start ∈ lower <$> word_list) as Hs.
  { assert (lower start ∈ vertices g) as Hin by (apply dec_stable; tauto).
    by rewrite Hv, elem_of_list_to_set in Hin. }
  destruct (shortest_bfs_path_correct g (lower start) (lower target) Hne)
    as (p & Hrun & Hp & Hmin).
  assert (∀ q, simple_path g (lower start) (lower target) q →
               simple_ladder word_list (lower start) (lower target) q)
    as Hlad.
  { intros q [(? & ? & ?) ?].
    by apply (ladder_graph_walk g word_list Hg). }
  exists p. split; [done|]. split.
  - destruct Hp as [->|Hp]; [by left|right].
    split; [by apply Hlad|].
    by eapply simple_ladder_is_valid, Hlad.
  - intros q Hq.
    assert (path_between g (lower start) (lower target) q) as Hpath.
    { destruct (ladder_graph_walk g word_list Hg (lower start)
                  (lower target) q Hs) as [_ Hback].
      destruct (Hback Hq) as (? & ? & ? & ?). by repeat split. }
    destruct (Hmin q Hpath) as [Hnil Hle]. split; [done|].
    destruct Hp as [->|Hp]; [done|].
    unfold get_rung_length.
    rewrite (simple_ladder_is_valid _ _ _ _ Hne (Hlad p Hp)),
      (simple_ladder_is_valid _ _ _ _ Hne Hq).
    simpl. unfold len. lia.
Qed.

Lemma get_shortest_ladder_is_shortest_ladder_witness :
  ∃ p,
    (∀ fuel, bfs_budget (LadderGraph_init three_words) ≤ fuel →
       get_shortest_ladder fuel (LadderGraph_init three_words) "AB" "bc"
       = Some (Returned p))
    ∧ (p = []
       ∨ (simple_ladder three_words (lower "AB") (lower "bc") p
          ∧ is_valid_ladder p = true))
    ∧ ∀ q, simple_ladder three_words (lower "AB") (lower "bc") q →
           p ≠ [] ∧ (get_rung_length p ≤ get_rung_length q)%Z.
Proof.
  apply (get_shortest_ladder_is_shortest_ladder
           (LadderGraph_init three_words) three_words "AB" "bc").
  - exists (build_adj_list three_words).
    split; [reflexivity|]. intros v. reflexivity.
  - discriminate.
Defined.

(** Where the value of [new_path] comes from: it is the one it had, or an
    extension of the dequeued path by a fresh neighbour. *)
Lemma bfs_for_new_path (target : string) (h ns : list string)
    (q : list (list string)) (np : option (list string)) :
  match bfs_for target h ns q np with
  | Next (_, np') =>
      np' = np ∨ ∃ n, n ∈ ns ∧ (n ∉ h) ∧ np' = Some (h ++ [n])
  | Return p =>
      np = Some p ∨ ∃ n, n ∈ ns ∧ (n ∉ h) ∧ p = h ++ [n]
  | Raise _ => True
  end.
Proof.
  revert q np. induction ns as [|n ns IH]; intros q np; simpl; [by left|].
  destruct (decide (n ∉ h)) as [Hn|Hn].
  - destruct (decide (n = target)).
    { right. exists n. split; [left|done]. }
    specialize (IH (q ++ [h ++ [n]]) (Some (h ++ [n]))).
    destruct (bfs_for _ _ _ _ _) as [[q' np']|p|]; [| |done].
    + destruct IH as [->|(m & ? & ? & ->)]; right;
        [exists n|exists m]; (split; [by constructor|done]).
    + destruct IH as [[= <-]|(m & ? & ? & ->)]; right;
        [exists n|exists m]; (split; [by constructor|done]).
  - destruct (decide (n = target)).
    { destruct np; [by left|done]. }
    specialize (IH q np).
    destruct (bfs_for _ _ _ _ _) as [[q' np']|p|]; [| |done].
    + destruct IH as [->|(m & ? & ? & ->)]; [by left|right].
      exists m. split; [by right|done].
    + destruct IH as [->|(m & ? & ? & ->)]; [by left|right].
      exists m. split; [by right|done].
Qed.

Lemma bfs_for_without_target (target : string) (h ns : list string)
    (q : list (list string)) (np : option (list string)) :
  target ∉ ns → ∃ r, bfs_for target h ns q np = Next r.
Proof.
  revert q np. induction ns as [|n ns IH]; intros q np Ht; simpl.
  { by eexists. }
  apply not_elem_of_cons in Ht as [Hn Ht].
  destruct (decide (n ∉ h)); (destruct (decide (n = target)); [done|]);
    by apply IH.
Qed.

Lemma bfs_for_bound_target (target : string) (h ns : list string)
    (q : list (list string)) (np : option (list string)) :
  target ∈ ns → np ≠ None →
  ∃ p, bfs_for target h ns q np = Return p.
Proof.
  intros Hin Hnp.
  pose proof (bfs_for_unbound target h ns q np) as Hraise.
  destruct (bfs_for _ _ _ _ _) as [[q' np']|p|e] eqn:Heq.
  - apply bfs_for_Next in Heq as [_ ?]. done.
  - by exists p.
  - by destruct Hraise.
Qed.

(** X23.  Asked for a ladder from a word to itself, [get_shortest_ladder]
    returns the empty tuple exactly when the word has no neighbour, as an
    unknown word has none.  When it has one, the result is the value left in
    [new_path]: a tuple of at least two different words that starts at the
    word, and so does not end at it. *)
Theorem get_shortest_ladder_same_word (g : Graph) (word_list : list string)
    (word : string) :
  ladder_graph g word_list →
  ∃ p,
    (∀ fuel, bfs_budget g ≤ fuel →
       get_shortest_ladder fuel g word word = Some (Returned p))
    ∧ (p = [] ↔ get_neighbors g (lower word) = [])
    ∧ (p ≠ [] →
       head p = Some (lower word) ∧ 2 ≤ length p ∧ NoDup p
       ∧ last p ≠ Some (lower word)).
Proof.
  intros Hg. set (s := lower word).
  assert (∀ p, head p = Some s → 2 ≤ length p → NoDup p →
               last p ≠ Some s) as Hlast.
  { intros p Hhead Hlen Hnd Hl. rewrite head_lookup in Hhead.
    rewrite last_lookup in Hl.
    pose proof (NoDup_lookup _ _ _ _ Hnd Hhead Hl). lia. }
  assert (2 ≤ bfs_budget g) as Hbudget.
  { unfold bfs_budget. destruct (length (nodes g)); simpl; lia. }
  enough (∃ p, get_shortest_bfs_path 2 g s s = Some (Returned p)
               ∧ (p = [] ↔ get_neighbors g s = [])
               ∧ (p ≠ [] → head p = Some s ∧ 2 ≤ length p ∧ NoDup p))
    as (p & Hrun & Hiff & Hp).
  { unfold get_shortest_ladder. fold s. case_decide as Hunknown.
    - exists []. split; [done|]. split; [|done]. split; [|done].
      intros _. unfold get_neighbors. rewrite decide_True; [done|tauto].
    - exists p. split; [|split; [done|]].
      + intros fuel Hfuel. eapply bfs_while_fuel_mono; [exact Hrun|lia].
      + intros Hnil. destruct (Hp Hnil) as (? & ? & ?).
        repeat split; try done. by apply Hlast. }
  unfold get_shortest_bfs_path. simpl.
  assert (s ∉ get_neighbors g s) as Hself.
  { intros H. apply (ladder_graph_neighbors g word_list Hg) in H. tauto. }
  pose proof (bfs_for_unbound s [s] (get_neighbors g s) [] None) as Hraise.
  pose proof (bfs_for_new_path s [s] (get_neighbors g s) [] None) as Hnew.
  destruct (bfs_for_without_target s [s] (get_neighbors g s) [] None Hself)
    as [[q1 np1] Hfor1].
  rewrite Hfor1 in Hraise, Hnew |- *.
  apply bfs_for_Next in Hfor1 as [-> _]. simpl.
  destruct (get_neighbors g s) as [|u ns] eqn:Hnb.
  { exists []. simpl. split; [done|]. done. }
  assert (u ≠ s) as Hu by (intros ->; apply Hself; left).
  rewrite filter_cons, decide_True
    by (by intros ?%list_elem_of_singleton).
  simpl.
  assert (s ∈ get_neighbors g u) as Hback.
  { eapply ladder_graph_symmetric; [done|]. rewrite Hnb. left. }
  assert (np1 ≠ None) as Hnp1.
  { intros ->. destruct (Hraise eq_refl) as [_ Hq].
    rewrite filter_cons, decide_True in Hq
      by (by intros ?%list_elem_of_singleton).
    done. }
  match goal with
  | |- context [bfs_for s ?h ?nbrs ?q np1] =>
      destruct (bfs_for_bound_target s h nbrs q np1 Hback Hnp1)
        as [p Hfor2];
      pose proof (bfs_for_new_path s h nbrs q np1) as Hnew2
  end.
  rewrite Hfor2 in Hnew2 |- *.
  exists p. split; [done|].
  assert (head p = Some s ∧ 2 ≤ length p ∧ NoDup p) as Hp.
  { destruct Hnew2 as [->|(m & _ & Hm & ->)].
    - destruct Hnew as [?|(n & _ & Hn & [= ->])]; [done|].
      repeat split; [simpl; lia|].
      by apply (NoDup_snoc_fresh [s] n); [apply NoDup_singleton|].
    - repeat split; [simpl; lia|].
      apply (NoDup_snoc_fresh [s; u] m); [|done].
      apply (NoDup_snoc_fresh [s] u); [apply NoDup_singleton|].
      by intros ?%list_elem_of_singleton. }
  split; [|done]. split; [|done].
  intros ->. by destruct Hp as ([=] & _).
Qed.

Lemma get_shortest_ladder_same_word_witness :
  ∃ p,
    (∀ fuel, bfs_budget (LadderGraph_init three_words) ≤ fuel →
       get_shortest_ladder fuel (LadderGraph_init three_words) "ab" "ab"
       = Some (Returned p))
    ∧ (p = [] ↔ get_neighbors (LadderGraph_init three_words) (lower "ab") = [])
    ∧ (p ≠ [] →
       head p = Some (lower "ab") ∧ 2 ≤ length p ∧ NoDup p
       ∧ last p ≠ Some (lower "ab")).
Proof.
  apply (get_shortest_ladder_same_word
           (LadderGraph_init three_words) three_words "ab").
  exists (build_adj_list three_words).
  split; [reflexivity|]. intros v. reflexivity.
Defined.

Example get_shortest_ladder_ab_ab :
  get_shortest_ladder 9 (LadderGraph_init three_words) "ab" "ab"
  = Some (Returned ["ab"; "ac"]%string).
Proof. vm_compute. reflexivity. Qed.
